(** * ioprocess: the Python client's communication engine

    A shallow embedding of [bindings/python/ioprocess/__init__.py]:
    the incremental writer [DataSender], the incremental reader
    [ResponseReader], the log reassembly of [IOProcess._processLogs], the
    caller side [IOProcess._sendCommand] and the event loop
    [_communicate] with its crash handler and restart.

    Conventions.
    - [bytes] is [list byte]; Python [str] after decoding is a list of code
      points.
    - A system call is answered by the environment: a descriptor that is
      read is a script of what successive reads find ([pipe]); a write is
      answered by how many bytes the descriptor accepts. The answer
      belongs to the descriptor number at the time of the call: a number
      that was closed answers with EBADF until the process gives the
      number to another descriptor, and then that one answers.
    - Python exceptions are values of [exn]; a computation returns, raises
      or spins ([res]).
    - [json.dumps], [json.loads], the UTF-8 decoder and [os.strerror] are
      library functions; they are the fields of the class [Runtime].
    - One turn of the loop of [_communicate] is one step: the threads
      interleave between turns. *)

From Stdlib Require Import ZArith NArith List Lia Bool String Ascii.
From Stdlib.Strings Require Import Byte.
From stdpp Require Import gmap list strings.
Import ListNotations.

Local Open Scope Z_scope.

(** ** Exceptions and results *)

Abbreviation bytes := (list byte).

Inductive exn : Type :=
| OSError (errno : Z) (strerror : string)   (* OSError(errno, strerror) *)
| OSErrno (errno : Z)                       (* an OSError raised by a system call *)
| StructError                               (* struct.error, from Size.unpack *)
| ValueError                                (* json.loads / bytes.decode *)
| KeyError                                  (* res['id'] on a missing key *)
| IndexError                                (* list.pop() on an empty list *)
| FDClosed                                  (* Exception("FD closed") *)
| AttributeError                            (* attribute access on None *)
| OverflowError                             (* an int that does not fit a C int *)
| Closed                                    (* class Closed(RuntimeError) *)
| Timeout.                                  (* class Timeout(RuntimeError) *)

Inductive res (A : Type) : Type :=
| Ok (a : A)
| Raise (e : exn)
| Diverges.
Arguments Ok {A} a.
Arguments Raise {A} e.
Arguments Diverges {A}.

Definition EAGAIN : Z := 11.
Definition EINTR : Z := 4.
Definition EBADF : Z := 9.
Definition ETIMEDOUT : Z := 110.

Definition ERR_IOPROCESS_CRASH : Z := 100001.

(** ** Size = Struct("@Q"): eight bytes, native order (little-endian) *)

Module Size.

Definition size : nat := 8.

Fixpoint le_decode (bs : bytes) : N :=
  match bs with
  | [] => 0%N
  | b :: rest => (Byte.to_N b + 256 * le_decode rest)%N
  end.

Fixpoint le_encode (k : nat) (n : N) : bytes :=
  match k with
  | O => []
  | S k' =>
      match Byte.of_N (n mod 256) with
      | Some b => b :: le_encode k' (n / 256)
      | None => []
      end
  end.

(** [Size.unpack(buf)[0]]: struct.error unless [buf] is exactly 8 bytes. *)
Definition unpack (buf : bytes) : option N :=
  if Nat.eqb (length buf) size then Some (le_decode buf) else None.

(** [Size.pack(n)]: struct.error when [n] does not fit 64 bits. *)
Definition pack (n : N) : option bytes :=
  if (n <? 2 ^ 64)%N then Some (le_encode size n) else None.

End Size.

(** ** System calls answered by the environment *)

(** What one [os.write(fd, data)] meets: the descriptor takes up to [room]
    bytes, or the call fails with [errno]. *)
Inductive fd_write : Type :=
| Accepts (room : nat)
| WriteFails (errno : Z).

Definition os_write (w : fd_write) (data : bytes) : res nat :=
  match w with
  | Accepts room => Ok (Nat.min room (length data))
  | WriteFails e => Raise (OSErrno e)
  end.

(** What successive [os.read] calls on a descriptor find: a chunk of bytes
    present in the pipe (a read takes a prefix, the rest stays in front),
    a failing call, or end of file. The empty script is an empty pipe
    with the writer alive: every read fails with EAGAIN. *)
Inductive read_event : Type :=
| Avail (bs : bytes)
| ReadFails (errno : Z)
| Eof.

Abbreviation pipe := (list read_event).

Fixpoint os_read (p : pipe) (n : nat) : res bytes * pipe :=
  match n with
  | O => (Ok [], p)
  | S _ =>
      match p with
      | [] => (Raise (OSErrno EAGAIN), [])
      | Avail [] :: rest => os_read rest n
      | Avail bs :: rest =>
          (Ok (firstn n bs),
           match skipn n bs with [] => rest | tl => Avail tl :: rest end)
      | ReadFails e :: rest => (Raise (OSErrno e), rest)
      | Eof :: rest => (Ok [], Eof :: rest)
      end
  end.

(** ** DataSender *)

Record DataSender : Type := mkDataSender { _dataPending : bytes }.

(** [DataSender.process]: the boolean returned, the sender afterwards and
    the bytes that reached the descriptor. *)
Definition DataSender_process (w : fd_write) (s : DataSender)
  : res bool * DataSender * bytes :=
  match _dataPending s with
  | [] => (Ok true, s, [])
  | _ =>
      match os_write w (_dataPending s) with
      | Ok n =>
          (Ok false, mkDataSender (skipn n (_dataPending s)),
           firstn n (_dataPending s))
      | Raise e => (Raise e, s, [])
      | Diverges => (Diverges, s, [])
      end
  end.

(** ** Responses, requests and the library functions *)

#[local] Set Warnings "-register-all".

Inductive json : Type :=
| JNull
| JBool (b : bool)
| JNum (n : Z)
| JStr (s : string)
| JArr (l : list json)
| JObj (l : list (string * json)).

(** The dict a response decodes to, through the keys the client reads:
    ['id'], ['errcode'], ['errstr'], ['result']; [None] is an absent key. *)
Record Response : Type := mkResponse {
  r_id : option Z;
  r_errcode : option Z;
  r_errstr : option string;
  r_result : option json
}.

(** Decoded text: a Python [str] as its code points. *)
Abbreviation pystr := (list N).

Definition pystr_of_string (s : string) : pystr :=
  map (fun a => N_of_ascii a) (list_ascii_of_string s).

(** The library functions the module calls.
    - [json_loads buf] is [json.loads(buf.decode('utf8'))], [None] when it
      raises or the value is not a dict (for a value that is not a dict
      the code raises one line later, at [res['id']] in the loop, which
      takes the same path there);
    - [json_dumps reqId methodName args] is
      [json.dumps({'id':..,'methodName':..,'args':..})] encoded;
    - [decode_replace] is [bytes.decode('utf8', 'replace')];
    - [strerror] is [os.strerror] on the codes it takes, those of a C
      [int] (see [os_strerror]). *)
Class Runtime : Type := {
  json_loads : bytes -> option Response;
  json_dumps : Z -> string -> json -> bytes;
  decode_replace : bytes -> pystr;
  strerror : Z -> string
}.

(** ** ResponseReader *)

Record ResponseReader : Type := mkResponseReader {
  _responses : list Response;
  _dataRemaining : N;
  _dataBuffer : bytes
}.

Definition ResponseReader_init : ResponseReader := mkResponseReader [] 0%N [].

(** The loop [while True: try: os.read(...) except OSError: EAGAIN/EINTR ->
    continue]. Every retry consumes one entry of the script; on the empty
    script the loop spins for ever. *)
Fixpoint read_retry (fuel : nat) (p : pipe) (n : nat) : res bytes * pipe :=
  match fuel with
  | O => (Diverges, p)
  | S fuel' =>
      match os_read p n with
      | (Raise (OSErrno e), p') =>
          if (e =? EAGAIN) || (e =? EINTR) then read_retry fuel' p' n
          else (Raise (OSErrno e), p')
      | other => other
      end
  end.

Section WithRuntime.
Context {RT : Runtime}.

(** [ResponseReader.process]: what it returns, the reader afterwards and
    what is left of the pipe. The count handed to [os.read] is taken to
    be one it accepts: [os.read] refuses a count from 2^63 on
    (OverflowError) and a buffer it cannot allocate (MemoryError); a
    header that declares such a length is outside this model. *)
Definition ResponseReader_process (r : ResponseReader) (p : pipe)
  : res bool * ResponseReader * pipe :=
  let header : (ResponseReader * pipe) + (res bool * ResponseReader * pipe) :=
    if (_dataRemaining r =? 0)%N then
      match os_read p Size.size with
      | (Ok buf, p1) =>
          match Size.unpack buf with
          | Some n => inl (mkResponseReader (_responses r) n (_dataBuffer r), p1)
          | None => inr (Raise StructError, r, p1)
          end
      | (Raise e, p1) => inr (Raise e, r, p1)
      | (Diverges, p1) => inr (Diverges, r, p1)
      end
    else inl (r, p) in
  match header with
  | inr out => out
  | inl (r1, p1) =>
      match read_retry (S (length p1)) p1 (N.to_nat (_dataRemaining r1)) with
      | (Ok buff, p2) =>
          let remaining := (_dataRemaining r1 - N.of_nat (length buff))%N in
          let buffer := _dataBuffer r1 ++ buff in
          if (remaining =? 0)%N then
            match json_loads buffer with
            | Some resObj =>
                (Ok true,
                 mkResponseReader (_responses r1 ++ [resObj]) remaining [],
                 p2)
            | None =>
                (Raise ValueError,
                 mkResponseReader (_responses r1) remaining buffer, p2)
            end
          else (Ok false, mkResponseReader (_responses r1) remaining buffer, p2)
      | (Raise e, p2) => (Raise e, r1, p2)
      | (Diverges, p2) => (Diverges, r1, p2)
      end
  end.

(** [ResponseReader.pop]: [self._responses.pop()], the last element. *)
Definition ResponseReader_pop (r : ResponseReader)
  : option (Response * ResponseReader) :=
  match rev (_responses r) with
  | [] => None
  | x :: before =>
      Some (x, mkResponseReader (rev before) (_dataRemaining r) (_dataBuffer r))
  end.

End WithRuntime.

(** ** Log reassembly: [IOProcess._processLogs] *)

Inductive level : Type := ERROR | WARNING | DEBUG | INFO.

Abbreviation loc := nat.

(** What the engine and the client do to the outside, in order: calls on
    the two loggers, bytes written to the request pipe, processes started
    and killed, and the table insertions of the loop. *)
Inductive action : Type :=
| Sublog (l : level) (message : pystr)      (* self._sublog.<level>(message) *)
| InvalidLogMessage (line : pystr)          (* _log.warning("Invalid log message ...") *)
| UnknownRequestId (reqId : Z)              (* _log.warning("Unknown request id %d") *)
| ShutdownRequested                         (* _log.info("shutdown requested") *)
| IOProcessFailure                          (* _log.error("IOProcess failure") *)
| Dispatched (reqId : Z) (resObj : loc)     (* pendingRequests[reqId] = resObj *)
| Sent (data : bytes)                       (* os.write(writePipe, ...) *)
| Killed                                    (* proc.kill(); proc.wait() *)
| Spawned.                                  (* _spawnProc(cmd) *)

Definition LF : byte := x0a.
Definition CR : byte := x0d.

(** [bytes.splitlines(True)]: lines end at LF, CR or CR LF and keep their
    terminator; a last line without terminator is kept as it is. *)
Fixpoint splitlines (data : bytes) : list bytes :=
  match data with
  | [] => []
  | b :: rest =>
      if Byte.eqb b LF then [LF] :: splitlines rest
      else if Byte.eqb b CR then
        match rest with
        | b' :: rest' =>
            if Byte.eqb b' LF then [CR; LF] :: splitlines rest'
            else [CR] :: splitlines rest
        | [] => [[CR]]
        end
      else
        match splitlines rest with
        | [] => [[b]]
        | l :: ls => (b :: l) :: ls
        end
  end.

(** [line.endswith(b"\n")] *)
Definition endswith_LF (line : bytes) : bool :=
  match last line with
  | Some b => Byte.eqb b LF
  | None => false
  end.

(** [str.isspace] on one code point, the characters [str.strip()] removes. *)
Definition isspace (c : N) : bool :=
  ((9 <=? c) && (c <=? 13) || (28 <=? c) && (c <=? 32)
   || (c =? 133) || (c =? 160) || (c =? 5760)
   || (8192 <=? c) && (c <=? 8202)
   || (c =? 8232) || (c =? 8233) || (c =? 8239) || (c =? 8287)
   || (c =? 12288))%N.

Fixpoint lstrip (s : pystr) : pystr :=
  match s with
  | [] => []
  | c :: rest => if isspace c then lstrip rest else s
  end.

Definition strip (s : pystr) : pystr := rev (lstrip (rev (lstrip s))).

(** [s.partition(sep)]: the text before and after the first [sep]. *)
Fixpoint str_partition (sep : N) (s : pystr) : option (pystr * pystr) :=
  match s with
  | [] => None
  | c :: rest =>
      if (c =? sep)%N then Some ([], rest)
      else match str_partition sep rest with
           | Some (before, after) => Some (c :: before, after)
           | None => None
           end
  end.

(** [s.split(sep, maxsplit)] for a one-character separator. *)
Fixpoint str_split (sep : N) (maxsplit : nat) (s : pystr) : list pystr :=
  match maxsplit with
  | O => [s]
  | S k =>
      match str_partition sep s with
      | Some (before, after) => before :: str_split sep k after
      | None => [s]
      end
  end.

Definition BAR : N := 124.

Section Logs.
Context {RT : Runtime}.

(** The body of the loop for a line that ends in LF. *)
Definition log_line (line : bytes) : list action :=
  let text := decode_replace line in
  match str_split BAR 2 (strip text) with
  | [lvl; logDomain; message] =>
      if bool_decide (lvl = pystr_of_string "ERROR") then [Sublog ERROR message]
      else if bool_decide (lvl = pystr_of_string "WARNING") then [Sublog WARNING message]
      else if bool_decide (lvl = pystr_of_string "DEBUG") then [Sublog DEBUG message]
      else if bool_decide (lvl = pystr_of_string "INFO") then [Sublog INFO message]
      else []
  | _ => [InvalidLogMessage text]
  end.

(** [for line in lines: ...] with [partial] the value of
    [self._partialLogs] when the loop starts. *)
Fixpoint process_lines (lines : list bytes) (partial : bytes)
  : list action * bytes :=
  match lines with
  | [] => ([], partial)
  | line :: rest =>
      if negb (endswith_LF line) then ([], line)
      else
        let '(acts, partial') := process_lines rest partial in
        (log_line line ++ acts, partial')
  end.

(** [_processLogs(data)]: the logger calls made and the new
    [self._partialLogs]. *)
Definition _processLogs (data : bytes) (partial : bytes)
  : list action * bytes :=
  match partial with
  | [] => process_lines (splitlines data) partial
  | _ => process_lines (splitlines (partial ++ data)) []
  end.

(** Feeding the reads of one channel one after the other. *)
Fixpoint feed_logs (chunks : list bytes) (partial : bytes)
  : list action * bytes :=
  match chunks with
  | [] => ([], partial)
  | data :: rest =>
      let '(acts, partial1) := _processLogs data partial in
      let '(acts', partial2) := feed_logs rest partial1 in
      (acts ++ acts', partial2)
  end.

End Logs.

(** ** The client object, the result objects and the engine's locals *)

(** [class CmdResult]: [event] is whether the [Event] is set. The objects
    live in a store and are shared by reference between the caller, the
    command queue and the table of the loop. *)
Record CmdResult : Type := mkCmdResult {
  event : bool;
  result : option Response
}.

(** The fields of [IOProcess] the engine and [_sendCommand] use.
    [_eventFds_open] is whether [_eventFdReciever] and [_eventFdSender]
    are still open ([close] closes both). *)
Record IOProcess : Type := mkIOProcess {
  _commandQueue : list (string * json * loc);
  _reqId : Z;
  _isRunning : bool;
  _partialLogs : bytes;
  _eventFds_open : bool
}.

(** The locals of one run of [_communicate]. *)
Record Comm : Type := mkComm {
  dataSender : option DataSender;
  pendingRequests : gmap Z loc;
  responseReader : ResponseReader
}.

Definition Comm_init : Comm := mkComm None ∅ ResponseReader_init.

(** The engine thread: inside the loop of a generation, spinning in a
    read that never gets data, or gone. *)
Inductive thread : Type :=
| Running (m : Comm)
| Spinning
| Exited.

Record System : Type := mkSystem {
  client : IOProcess;
  engine : thread;
  heap : gmap loc CmdResult;
  trace : list action
}.

(** A generation at work: the client, its locals, the store, the trace. *)
Record World : Type := mkWorld {
  w_client : IOProcess;
  w_comm : Comm;
  w_heap : gmap loc CmdResult;
  w_trace : list action
}.

Definition crash_result : Response :=
  mkResponse None (Some ERR_IOPROCESS_CRASH)
             (Some "ioprocess crashed unexpectedly"%string) None.

(** [request.result = ...; request.event.set()] *)
Definition resolve (l : loc) (r : Response) (h : gmap loc CmdResult)
  : gmap loc CmdResult :=
  <[l := mkCmdResult true (Some r)]> h.

(** [for request in pendingRequests.values(): ...] of the handler. *)
Definition fail_all (pending : gmap Z loc) (h : gmap loc CmdResult)
  : gmap loc CmdResult :=
  foldr (fun l acc => resolve l crash_result acc) h
        (map snd (map_to_list pending)).

(** [IOProcess._getRequestId] *)
Definition _getRequestId (c : IOProcess) : Z * IOProcess :=
  let c' := mkIOProcess (_commandQueue c) (_reqId c + 1) (_isRunning c)
                        (_partialLogs c) (_eventFds_open c) in
  (_reqId c', c').

(** [IOProcess._pingPoller]. [w] is what the write on the number kept in
    [_eventFdSender] meets: the wakeup pipe while it is open; after
    [close] the number is stale, and the write fails with EBADF unless
    the process has reused the number, when the new descriptor answers. *)
Definition _pingPoller (w : fd_write) (c : IOProcess) : res unit :=
  match os_write w [x30] with
  | Ok _ => Ok tt
  | Raise (OSErrno e) =>
      if e =? EAGAIN then Ok tt
      else if negb (_isRunning c) then Raise Closed
      else Raise (OSErrno e)
  | Raise e => Raise e
  | Diverges => Diverges
  end.

(** [IOProcess.close]: the flag is flipped first, then the poller is
    pinged, then both wakeup descriptors are closed. *)
Definition close (ping : fd_write) (c : IOProcess) : res unit * IOProcess :=
  if negb (_isRunning c) then (Ok tt, c)
  else
    let c1 := mkIOProcess (_commandQueue c) (_reqId c) false
                          (_partialLogs c) (_eventFds_open c) in
    match _pingPoller ping c1 with
    | Ok _ =>
        (Ok tt, mkIOProcess (_commandQueue c) (_reqId c) false
                            (_partialLogs c) false)
    | Raise e => (Raise e, c1)
    | Diverges => (Diverges, c1)
    end.

(** What [poll] reports for one descriptor, with what the system calls of
    its branch of the loop meet. *)
Inductive fdname : Type := Out | Err | EvtReciever | ReadPipe | WritePipe.

Inductive ready : Type :=
| ErrorReady (fd : fdname)                   (* event & ERROR_FLAGS *)
| LogReady (fd : fdname) (p : pipe)          (* fd in (out, err) *)
| ResponseReady (p : pipe)                   (* fd == readPipe *)
| WakeupReady (p : pipe)                     (* fd == evtReciever *)
| WriteReady (w : fd_write) (ping : fd_write). (* fd == writePipe *)

Inductive poll_result : Type :=
| PollFails (errno : Z)
| PollReturns (pollres : list ready).

(** One turn of [while True]: whether the weak reference still resolves
    and what [NoIntrPoll(poller.poll, 5)] gives, the list of ready
    descriptors or an error other than EINTR, which it lets through. *)
Record tick : Type := mkTick {
  ioproc_alive : bool;
  polled : poll_result
}.

(** How the body of the [for] leaves an event. *)
Inductive flow : Type :=
| Continue
| Return
| Raised (e : exn)
| Spins.

(** How a run of [_communicate] leaves its loop: [break] or [return], or
    an exception with whether the local [real_ioproc] is bound to the
    client; [alive] is what [ioproc_ref()] gives in the [finally]. *)
Inductive ending : Type :=
| Left (alive : bool)
| Crashed (e : exn) (real_ioproc : bool) (alive : bool).

(** How one turn of [while True] ends. *)
Inductive turn : Type :=
| Again
| Ends (how : ending)
| Hangs.

(** What runs beside a caller that waits: turns of the engine loop, other
    threads entering [_sendCommand], a thread calling [close]. *)
Inductive input : Type :=
| EngineTurn (t : tick)
| Caller (cmdName : string) (args : json) (ping : fd_write)
| Closing (ping : fd_write).

Definition set_client (c : IOProcess) (w : World) : World :=
  mkWorld c (w_comm w) (w_heap w) (w_trace w).

Definition set_comm (m : Comm) (w : World) : World :=
  mkWorld (w_client w) m (w_heap w) (w_trace w).

Definition emit (acts : list action) (w : World) : World :=
  mkWorld (w_client w) (w_comm w) (w_heap w) (w_trace w ++ acts).

Definition set_partialLogs (partial : bytes) (c : IOProcess) : IOProcess :=
  mkIOProcess (_commandQueue c) (_reqId c) (_isRunning c) partial
              (_eventFds_open c).

Definition set_commandQueue (q : list (string * json * loc)) (c : IOProcess)
  : IOProcess :=
  mkIOProcess q (_reqId c) (_isRunning c) (_partialLogs c) (_eventFds_open c).

Section Engine.
Context {RT : Runtime}.

(** [IOProcess._requestToBytes] *)
Definition _requestToBytes (methodName : string) (args : json) (reqId : Z)
  : res bytes :=
  let reqStr := json_dumps reqId methodName args in
  match Size.pack (N.of_nat (length reqStr)) with
  | Some header => Ok (header ++ reqStr)
  | None => Raise StructError
  end.

(** [if fd in (out, err): real_ioproc._processLogs(os.read(fd, 1024))] *)
Definition on_logs (p : pipe) (w : World) : flow * World :=
  match fst (os_read p 1024) with
  | Ok data =>
      let '(acts, partial) := _processLogs data (_partialLogs (w_client w)) in
      (Continue, emit acts (set_client (set_partialLogs partial (w_client w)) w))
  | Raise e => (Raised e, w)
  | Diverges => (Spins, w)
  end.

(** [if fd == readPipe: ...] *)
Definition on_response (p : pipe) (w : World) : flow * World :=
  let m := w_comm w in
  match ResponseReader_process (responseReader m) p with
  | (Ok false, rr, _) =>
      (Return, set_comm (mkComm (dataSender m) (pendingRequests m) rr) w)
  | (Ok true, rr, _) =>
      match ResponseReader_pop rr with
      | None =>
          (Raised IndexError,
           set_comm (mkComm (dataSender m) (pendingRequests m) rr) w)
      | Some (res, rr') =>
          let w1 := set_comm (mkComm (dataSender m) (pendingRequests m) rr') w in
          match r_id res with
          | None => (Raised KeyError, w1)
          | Some reqId =>
              match pendingRequests m !! reqId with
              | Some pendingReq =>
                  (Continue,
                   mkWorld (w_client w)
                           (mkComm (dataSender m)
                                   (delete reqId (pendingRequests m)) rr')
                           (resolve pendingReq res (w_heap w))
                           (w_trace w))
              | None => (Continue, emit [UnknownRequestId reqId] w1)
              end
          end
      end
  | (Raise e, rr, _) =>
      (Raised e, set_comm (mkComm (dataSender m) (pendingRequests m) rr) w)
  | (Diverges, rr, _) =>
      (Spins, set_comm (mkComm (dataSender m) (pendingRequests m) rr) w)
  end.

(** [if fd == evtReciever: ...] *)
Definition on_wakeup (p : pipe) (w : World) : flow * World :=
  match fst (os_read p 1) with
  | Raise e => (Raised e, w)
  | Diverges => (Spins, w)
  | Ok _ =>
      let m := w_comm w in
      match dataSender m with
      | Some _ => (Continue, w)
      | None =>
          match _commandQueue (w_client w) with
          | [] => (Continue, w)
          | (methodName, args, resObj) :: queue =>
              let '(reqId, c) :=
                _getRequestId (set_commandQueue queue (w_client w)) in
              let pending := <[reqId := resObj]> (pendingRequests m) in
              let w1 :=
                mkWorld c (mkComm None pending (responseReader m)) (w_heap w)
                        (w_trace w ++ [Dispatched reqId resObj]) in
              match _requestToBytes methodName args reqId with
              | Ok reqString =>
                  (Continue,
                   set_comm (mkComm (Some (mkDataSender reqString)) pending
                                    (responseReader m)) w1)
              | Raise e => (Raised e, w1)
              | Diverges => (Spins, w1)
              end
          end
      end
  end.

(** [if fd == writePipe: ...] *)
Definition on_write (wr ping : fd_write) (w : World) : flow * World :=
  let m := w_comm w in
  match dataSender m with
  | None => (Raised AttributeError, w)
  | Some sender =>
      match DataSender_process wr sender with
      | (Ok true, _, _) =>
          let w1 :=
            set_comm (mkComm None (pendingRequests m) (responseReader m)) w in
          match _pingPoller ping (w_client w) with
          | Ok _ => (Continue, w1)
          | Raise e => (Raised e, w1)
          | Diverges => (Spins, w1)
          end
      | (Ok false, sender', sent) =>
          (Continue,
           emit [Sent sent]
                (set_comm (mkComm (Some sender') (pendingRequests m)
                                  (responseReader m)) w))
      | (Raise e, _, _) => (Raised e, w)
      | (Diverges, _, _) => (Spins, w)
      end
  end.

(** The body of [for fd, event in pollres]. *)
Definition handle_event (ev : ready) (w : World) : flow * World :=
  match ev with
  | ErrorReady _ => (Raised FDClosed, w)
  | LogReady _ p => on_logs p w
  | ResponseReady p => on_response p w
  | WakeupReady p => on_wakeup p w
  | WriteReady wr ping => on_write wr ping w
  end.

Fixpoint for_events (pollres : list ready) (w : World) : flow * World :=
  match pollres with
  | [] => (Continue, w)
  | ev :: rest =>
      match handle_event ev w with
      | (Continue, w') => for_events rest w'
      | other => other
      end
  end.

(** One turn of [while True]. *)
Definition iteration (t : tick) (w : World) : turn * World :=
  match polled t with
  | PollFails e => (Ends (Crashed (OSErrno e) false (ioproc_alive t)), w)
  | PollReturns pollres =>
      if negb (ioproc_alive t) then (Ends (Left false), w)
      else if negb (_isRunning (w_client w))
      then (Ends (Left true), emit [ShutdownRequested] w)
      else
        match for_events pollres w with
        | (Continue, w') => (Again, w')
        | (Return, w') => (Ends (Left true), w')
        | (Raised e, w') => (Ends (Crashed e true true), w')
        | (Spins, w') => (Hangs, w')
        end
  end.

(** [IOProcess._run]: a new worker and a new run of [_communicate]; the
    worker executable is taken to launch. The request counter is not
    among the fields it assigns. *)
Definition _run (c : IOProcess) : IOProcess := set_partialLogs [] c.

(** The [except:] and [finally:] of [_communicate]. The thread that
    [_run] starts is taken to reach its loop: the two returns before the
    loop, when the weak reference is dead as the thread starts and when
    [os.dup] fails, are not modelled. *)
Definition finish (how : ending) (w : World) : System :=
  let w1 :=
    match how with
    | Crashed _ true _ =>
        mkWorld (w_client w) (w_comm w)
                (fail_all (pendingRequests (w_comm w)) (w_heap w))
                (w_trace w ++ [IOProcessFailure])
    | _ => w
    end in
  let alive := match how with Left a => a | Crashed _ _ a => a end in
  if alive && _isRunning (w_client w1) then
    mkSystem (_run (w_client w1)) (Running Comm_init) (w_heap w1)
             (w_trace w1 ++ [Killed; Spawned])
  else
    mkSystem (w_client w1) Exited (w_heap w1) (w_trace w1 ++ [Killed]).

Definition engine_turn (t : tick) (s : System) : System :=
  match engine s with
  | Running m =>
      match iteration t (mkWorld (client s) m (heap s) (trace s)) with
      | (Again, w) =>
          mkSystem (w_client w) (Running (w_comm w)) (w_heap w) (w_trace w)
      | (Ends how, w) => finish how w
      | (Hangs, w) => mkSystem (w_client w) Spinning (w_heap w) (w_trace w)
      end
  | _ => s
  end.

(** [IOProcess.__init__], with the thread of the first generation in its
    loop. *)
Definition IOProcess_new : System :=
  mkSystem (mkIOProcess [] 0 true [] true) (Running Comm_init) ∅ [Spawned].

(** [_sendCommand] up to [res.event.wait(timeout)]: a new [CmdResult], the
    put on the queue, the ping. *)
Definition _sendCommand_enqueue (cmdName : string) (args : json)
    (ping : fd_write) (s : System) : res loc * System :=
  let l : loc := fresh (dom (heap s)) in
  let c := set_commandQueue (_commandQueue (client s) ++ [(cmdName, args, l)])
                            (client s) in
  let s' := mkSystem c (engine s) (<[l := mkCmdResult false None]> (heap s))
                     (trace s) in
  match _pingPoller ping c with
  | Ok _ => (Ok l, s')
  | Raise e => (Raise e, s')
  | Diverges => (Diverges, s')
  end.

(** [os.strerror(code)]: the argument is converted to a C [int] first,
    and a code outside its range raises OverflowError. *)
Definition os_strerror (code : Z) : res string :=
  if (- 2 ^ 31 <=? code) && (code <? 2 ^ 31) then Ok (strerror code)
  else Raise OverflowError.

(** [_sendCommand] after [res.event.wait(timeout)] has returned. The
    default of [res.result.get('errstr', os.strerror(errcode))] is
    evaluated before the lookup, whether ['errstr'] is there or not. *)
Definition _sendCommand_result (l : loc) (s : System) : res json * System :=
  match heap s !! l with
  | None => (Raise AttributeError, s)
  | Some res =>
      if negb (event res) then (Raise Timeout, s)
      else
        match result res with
        | None => (Raise AttributeError, s)
        | Some r =>
            let errcode := default 0 (r_errcode r) in
            if errcode =? 0 then (Ok (default JNull (r_result r)), s)
            else
              match os_strerror errcode with
              | Ok msg =>
                  (Raise (OSError errcode (default msg (r_errstr r))), s)
              | Raise e => (Raise e, s)
              | Diverges => (Diverges, s)
              end
        end
  end.

Definition step (i : input) (s : System) : System :=
  match i with
  | EngineTurn t => engine_turn t s
  | Caller cmdName args ping => snd (_sendCommand_enqueue cmdName args ping s)
  | Closing ping =>
      mkSystem (snd (close ping (client s))) (engine s) (heap s) (trace s)
  end.

Definition run (inputs : list input) (s : System) : System :=
  fold_left (fun acc i => step i acc) inputs s.

Definition is_set (l : loc) (s : System) : bool :=
  match heap s !! l with
  | Some res => event res
  | None => false
  end.

(** [res.event.wait(timeout)]: the rest of the system runs until the
    event is set or the time is over ([during] is used up). *)
Fixpoint wait (l : loc) (during : list input) (s : System) : System :=
  match during with
  | [] => s
  | i :: rest => if is_set l s then s else wait l rest (step i s)
  end.

(** [IOProcess._sendCommand] *)
Definition _sendCommand (cmdName : string) (args : json) (ping : fd_write)
    (during : list input) (s : System) : res json * System :=
  match _sendCommand_enqueue cmdName args ping s with
  | (Ok l, s1) => _sendCommand_result l (wait l during s1)
  | (Raise e, s1) => (Raise e, s1)
  | (Diverges, s1) => (Diverges, s1)
  end.

End Engine.

(** ** Notions the statements use *)

(** The request ids given out, in order, in a trace. *)
Fixpoint dispatched_ids (tr : list action) : list Z :=
  match tr with
  | [] => []
  | Dispatched reqId _ :: rest => reqId :: dispatched_ids rest
  | _ :: rest => dispatched_ids rest
  end.

(** The actions through which a command reaches a worker or a worker is
    started. *)
Definition reaches_worker (a : action) : bool :=
  match a with
  | Dispatched _ _ | Sent _ | Spawned => true
  | _ => false
  end.

(** A client [close] has returned on. *)
Definition closed (c : IOProcess) : Prop :=
  _isRunning c = false /\ _eventFds_open c = false.

(** The counter and the ids: the ids given out so far are 1, 2, ... up to
    the counter, in this order, and every id of the table is one of
    them. *)
Definition ids_consistent (c : IOProcess) (pending : gmap Z loc)
    (tr : list action) : Prop :=
  0 <= _reqId c
  /\ dispatched_ids tr = seqZ 1 (_reqId c)
  /\ forall reqId : Z, is_Some (pending !! reqId) -> 1 <= reqId <= _reqId c.

Definition world_ok (w : World) : Prop :=
  ids_consistent (w_client w) (pendingRequests (w_comm w)) (w_trace w).

Definition system_ok (s : System) : Prop :=
  ids_consistent (client s)
                 (match engine s with
                  | Running m => pendingRequests m
                  | _ => ∅
                  end)
                 (trace s).

(** A byte that [splitlines] takes for a line end. *)
Definition is_newline (b : byte) : bool := Byte.eqb b LF || Byte.eqb b CR.

(** Calling [process] again after every incomplete read, [calls] times at
    most: the value of each call, the reader and the pipe at the end. *)
Fixpoint process_calls {RT : Runtime} (calls : nat) (r : ResponseReader)
    (p : pipe) : list (res bool) * ResponseReader * pipe :=
  match calls with
  | O => ([], r, p)
  | S calls' =>
      match ResponseReader_process r p with
      | (Ok false, r', p') =>
          let '(values, r'', p'') := process_calls calls' r' p' in
          (Ok false :: values, r'', p'')
      | (value, r', p') => ([value], r', p')
      end
  end.

(** What [process] gives once the whole payload is buffered. *)
Definition completed {RT : Runtime} (rs : list Response) (payload : bytes)
  : res bool * ResponseReader :=
  match json_loads payload with
  | Some resObj => (Ok true, mkResponseReader (rs ++ [resObj]) 0%N [])
  | None => (Raise ValueError, mkResponseReader rs 0%N payload)
  end.

Section Fatal.
Context {RT : Runtime}.

(** The errors of the crash path, on what [poll] reports and what the
    system calls meet: a descriptor with an error or hangup flag, a read
    or write that fails, a frame the reader rejects (short header, payload
    that does not decode), a response without an id. *)
Inductive fatal (w : World) : ready -> Prop :=
| fatal_hangup fd :
    fatal w (ErrorReady fd)
| fatal_log_read fd p e :
    fst (os_read p 1024) = Raise e ->
    fatal w (LogReady fd p)
| fatal_wakeup_read p e :
    fst (os_read p 1) = Raise e ->
    fatal w (WakeupReady p)
| fatal_frame p e :
    fst (fst (ResponseReader_process (responseReader (w_comm w)) p)) = Raise e ->
    fatal w (ResponseReady p)
| fatal_response_without_id p rr p' rsp rr' :
    ResponseReader_process (responseReader (w_comm w)) p = (Ok true, rr, p') ->
    ResponseReader_pop rr = Some (rsp, rr') ->
    r_id rsp = None ->
    fatal w (ResponseReady p)
| fatal_write e ping b data :
    dataSender (w_comm w) = Some (mkDataSender (b :: data)) ->
    fatal w (WriteReady (WriteFails e) ping)
| fatal_ping wr ping e :
    dataSender (w_comm w) = Some (mkDataSender []) ->
    _pingPoller ping (w_client w) = Raise e ->
    fatal w (WriteReady wr ping).

End Fatal.

(** ** A runtime for the examples

    The examples use ASCII text, on which UTF-8 decoding is the identity.
    [example_loads] decodes the JSON documents the examples use, as
    [json.dumps] writes them: an object with the key [id], then
    optionally [errcode], then optionally [errstr] or [result], numbers
    in decimal, [errstr] a string of letters, digits and spaces. On
    these it gives what [json.loads] gives; other documents are not
    used. The encoder of requests is a stand-in, a request being encoded
    as its method name: nothing here reads a request back. *)
Definition ascii (s : string) : bytes := list_byte_of_string s.

Definition quote : byte := x22.

(** ["name": ] *)
Definition key (name : string) : bytes :=
  quote :: ascii name ++ quote :: ascii ": ".

Fixpoint strip_prefix (prefix buf : bytes) : option bytes :=
  match prefix, buf with
  | [], _ => Some buf
  | a :: prefix', b :: buf' =>
      if Byte.eqb a b then strip_prefix prefix' buf' else None
  | _ :: _, [] => None
  end.

Definition is_digit (b : byte) : bool :=
  ((48 <=? Byte.to_N b) && (Byte.to_N b <=? 57))%N.

Fixpoint take_digits (buf : bytes) : bytes * bytes :=
  match buf with
  | b :: rest =>
      if is_digit b then
        let '(ds, tl) := take_digits rest in (b :: ds, tl)
      else ([], buf)
  | [] => ([], [])
  end.

Definition digits_value (ds : bytes) : N :=
  fold_left (fun acc b => (acc * 10 + (Byte.to_N b - 48))%N) ds 0%N.

(** A JSON integer without sign: no leading zero. *)
Definition parse_number (buf : bytes) : option (Z * bytes) :=
  match take_digits buf with
  | ([], _) => None
  | ([d], rest) => Some (Z.of_N (digits_value [d]), rest)
  | (d :: ds, rest) =>
      if Byte.eqb d "0" then None
      else Some (Z.of_N (digits_value (d :: ds)), rest)
  end.

Definition is_plain (b : byte) : bool :=
  let n := Byte.to_N b in
  ((n =? 32) || is_digit b || ((65 <=? n) && (n <=? 90))
   || ((97 <=? n) && (n <=? 122)))%N.

(** The text of a string up to its closing quote. *)
Fixpoint take_word (buf : bytes) : option (bytes * bytes) :=
  match buf with
  | [] => None
  | b :: rest =>
      if Byte.eqb b quote then Some ([], rest)
      else if is_plain b then
        match take_word rest with
        | Some (word, tl) => Some (b :: word, tl)
        | None => None
        end
      else None
  end.

(** The closing brace and nothing after it. *)
Definition is_close (buf : bytes) : bool :=
  match buf with
  | [b] => Byte.eqb b "}"
  | _ => false
  end.

Definition example_loads (buf : bytes) : option Response :=
  match strip_prefix (ascii "{" ++ key "id") buf with
  | None => None
  | Some b1 =>
      match parse_number b1 with
      | None => None
      | Some (i, b2) =>
          if is_close b2 then Some (mkResponse (Some i) None None None)
          else
            match strip_prefix (ascii ", " ++ key "errcode") b2 with
            | None => None
            | Some b3 =>
                match parse_number b3 with
                | None => None
                | Some (e, b4) =>
                    if is_close b4 then
                      Some (mkResponse (Some i) (Some e) None None)
                    else
                      match strip_prefix
                              (ascii ", " ++ key "errstr" ++ [quote]) b4,
                            strip_prefix (ascii ", " ++ key "result") b4 with
                      | Some b5, _ =>
                          match take_word b5 with
                          | Some (word, b6) =>
                              if is_close b6 then
                                Some (mkResponse (Some i) (Some e)
                                        (Some (string_of_list_byte word)) None)
                              else None
                          | None => None
                          end
                      | None, Some b5 =>
                          match parse_number b5 with
                          | Some (r, b6) =>
                              if is_close b6 then
                                Some (mkResponse (Some i) (Some e) None
                                                 (Some (JNum r)))
                              else None
                          | None => None
                          end
                      | None, None => None
                      end
                end
            end
      end
  end.

(** [os.strerror] on Linux, for the codes the examples use. *)
Definition example_strerror (code : Z) : string :=
  if code =? 2 then "No such file or directory"
  else if code =? 9 then "Bad file descriptor"
  else if code =? 13 then "Permission denied"
  else if code =? 110 then "Connection timed out"
  else "Unknown error".

Definition example_runtime : Runtime := {|
  json_loads := example_loads;
  json_dumps := fun _ methodName _ => list_byte_of_string methodName;
  decode_replace := map Byte.to_N;
  strerror := example_strerror
|}.

(** The documents of the examples: [{"id": i}], [{"id": i, "errcode": e}],
    [{"id": i, "errcode": e, "errstr": "msg"}] and
    [{"id": i, "errcode": e, "result": r}], numbers given by their
    digits. *)
Definition json_id (i : string) : bytes :=
  ascii "{" ++ key "id" ++ ascii i ++ ascii "}".

Definition json_errcode (i e : string) : bytes :=
  ascii "{" ++ key "id" ++ ascii i ++ ascii ", " ++ key "errcode" ++ ascii e
    ++ ascii "}".


Definition json_result (i e r : string) : bytes :=
  ascii "{" ++ key "id" ++ ascii i ++ ascii ", " ++ key "errcode" ++ ascii e
    ++ ascii ", " ++ key "result" ++ ascii r ++ ascii "}".

(** Turns of the loop for the examples: the wakeup pipe is readable, the
    request pipe is writable, a framed response is readable, a
    descriptor hangs up. *)
Definition wakeup_turn : input :=
  EngineTurn (mkTick true (PollReturns [WakeupReady [Avail ["0"%byte]]])).

Definition write_turn : input :=
  EngineTurn (mkTick true (PollReturns [WriteReady (Accepts 4096) (Accepts 1)])).

Definition framed (payload : bytes) : bytes :=
  default [] (Size.pack (N.of_nat (length payload))) ++ payload.

Definition response_turn (payload : bytes) : input :=
  EngineTurn (mkTick true (PollReturns [ResponseReady [Avail (framed payload)]])).

Definition hangup_turn : tick :=
  mkTick true (PollReturns [ErrorReady ReadPipe]).

(** ** More of the module *)

(** A [DataSender] driven as the loop drives it, one [process] for each
    write readiness, [ws] being what the descriptor answers each time:
    the values of the calls, the sender at the end, all bytes written. *)
Fixpoint DataSender_drive (ws : list fd_write) (s : DataSender)
  : list (res bool) * DataSender * bytes :=
  match ws with
  | [] => ([], s, [])
  | w :: rest =>
      match DataSender_process w s with
      | (Ok v, s', sent) =>
          let '(values, s'', sent') := DataSender_drive rest s' in
          (Ok v :: values, s'', sent ++ sent')
      | (other, s', sent) => ([other], s', sent)
      end
  end.

(** [dict2namedtuple(d, ntType)], with [fields] for [ntType._fields]: the
    list [[d[field] for field in ntType._fields]], the arguments of the
    tuple. *)
Fixpoint dict2namedtuple (d : gmap string json) (fields : list string)
  : res (list json) :=
  match fields with
  | [] => Ok []
  | field :: rest =>
      match d !! field with
      | None => Raise KeyError
      | Some v =>
          match dict2namedtuple d rest with
          | Ok vs => Ok (v :: vs)
          | other => other
          end
      end
  end.

Definition StatResult_fields : list string :=
  ["st_mode"; "st_ino"; "st_dev"; "st_nlink"; "st_uid"; "st_gid"; "st_size";
   "st_atime"; "st_mtime"; "st_ctime"; "st_blocks"]%string.

(** The result objects a trace has put in the table, in order. *)
Fixpoint dispatched_objs (tr : list action) : list loc :=
  match tr with
  | [] => []
  | Dispatched _ resObj :: rest => resObj :: dispatched_objs rest
  | _ :: rest => dispatched_objs rest
  end.

(** The result objects waiting on the command queue, in order. *)
Definition queued_objs (c : IOProcess) : list loc :=
  map snd (_commandQueue c).

(** The result objects the table of the running generation refers to. *)
Definition pending_objs (s : System) : list loc :=
  match engine s with
  | Running m => map snd (map_to_list (pendingRequests m))
  | _ => []
  end.

Definition count_spawned (tr : list action) : nat :=
  length (List.filter (fun a => match a with Spawned => true | _ => false end) tr).

Definition count_killed (tr : list action) : nat :=
  length (List.filter (fun a => match a with Killed => true | _ => false end) tr).

(** The number of occurrences of a character. *)
Definition count_char (c : N) (s : pystr) : nat :=
  length (List.filter (fun x => (x =? c)%N) s).

Section Callers.
Context {RT : Runtime}.

(** The result objects the [Caller] steps of [inputs] create, in order. *)
Fixpoint submitted (inputs : list input) (s : System) : list loc :=
  match inputs with
  | [] => []
  | i :: rest =>
      match i with
      | Caller _ _ _ => [fresh (dom (heap s))]
      | _ => []
      end ++ submitted rest (step i s)
  end.

(** [IOProcess.crash]: [except OSError] takes the errors of system calls
    as well as the one [_sendCommand] raises for a response. *)
Definition crash (ping : fd_write) (during : list input) (s : System)
  : res bool * System :=
  match _sendCommand "crash" (JObj []) ping during s with
  | (Ok _, s') => (Ok false, s')
  | (Raise (OSError errno _), s') => (Ok (errno =? ERR_IOPROCESS_CRASH), s')
  | (Raise (OSErrno errno), s') => (Ok (errno =? ERR_IOPROCESS_CRASH), s')
  | (Raise e, s') => (Raise e, s')
  | (Diverges, s') => (Diverges, s')
  end.

(** [IOProcess.access] *)
Definition access (path : string) (mode : Z) (ping : fd_write)
    (during : list input) (s : System) : res json * System :=
  match _sendCommand "access" (JObj [("path", JStr path); ("mode", JNum mode)])
                     ping during s with
  | (Raise (OSError _ _), s') => (Ok (JBool false), s')
  | (Raise (OSErrno _), s') => (Ok (JBool false), s')
  | other => other
  end.

End Callers.

(** The actions of the body of the loop: logger calls, table insertions
    and writes, as opposed to what the [except] and [finally] do. *)
Definition loop_action (a : action) : bool :=
  match a with
  | Sublog _ _ | InvalidLogMessage _ | UnknownRequestId _ | Dispatched _ _
  | Sent _ => true
  | _ => false
  end.

(** Every entry of the table has been put there by the insertion the
    trace records for its id and object. *)
Definition table_recorded (pending : gmap Z loc) (tr : list action) : Prop :=
  forall (reqId : Z) (l : loc),
    pending !! reqId = Some l -> In (Dispatched reqId l) tr.

(** An object neither the queue nor the table refers to. *)
Definition unreferenced (l : loc) (queue : list loc) (pending : gmap Z loc)
  : Prop :=
  ~ In l queue /\ forall reqId : Z, pending !! reqId <> Some l.

(** The table of the generation the thread is in, empty when there is
    none. *)
Definition current_table (s : System) : gmap Z loc :=
  match engine s with
  | Running m => pendingRequests m
  | _ => ∅
  end.

(** How the queue, the table and the store hang together: an object is
    referred to at most once, by the queue or by one entry of the table;
    what is referred to is in the store; an object whose event is set is
    not referred to any more. *)
Record refs_ok (queue : list loc) (pending : gmap Z loc)
    (h : gmap loc CmdResult) : Prop := mk_refs_ok {
  queue_nodup : List.NoDup queue;
  pending_not_queued :
    forall reqId l, pending !! reqId = Some l -> ~ In l queue;
  pending_injective :
    forall reqId reqId' l,
      pending !! reqId = Some l -> pending !! reqId' = Some l -> reqId = reqId';
  queue_allocated : forall l, In l queue -> is_Some (h !! l);
  pending_allocated :
    forall reqId l, pending !! reqId = Some l -> is_Some (h !! l);
  set_unreferenced :
    forall l res,
      h !! l = Some res -> event res = true -> unreferenced l queue pending
}.

(** * Properties *)

(** ** Size: packing and unpacking *)

Lemma le_encode_length (k : nat) (n : N) : length (Size.le_encode k n) = k.
Proof.
  revert n. induction k as [|k IH]; intros n; simpl; [reflexivity|].
  destruct (Byte.of_N (n mod 256)) as [b|] eqn:E.
  - simpl. now rewrite IH.
  - apply Byte.of_N_None_iff in E.
    pose proof (N.mod_upper_bound n 256). lia.
Qed.

Lemma le_decode_encode (k : nat) (n : N) :
  Size.le_decode (Size.le_encode k n) = (n mod 256 ^ N.of_nat k)%N.
Proof.
  revert n. induction k as [|k IH]; intros n.
  - simpl. now rewrite N.mod_1_r.
  - cbn [Size.le_encode].
    destruct (Byte.of_N (n mod 256)) as [b|] eqn:E.
    + cbn [Size.le_decode]. rewrite IH. apply Byte.to_of_N in E. rewrite E.
      rewrite Nat2N.inj_succ, N.pow_succ_r'.
      rewrite (N.Div0.mod_mul_r n 256 (256 ^ N.of_nat k)). lia.
    + apply Byte.of_N_None_iff in E.
      pose proof (N.mod_upper_bound n 256). lia.
Qed.

Lemma unpack_pack (n : N) (header : bytes) :
  Size.pack n = Some header -> Size.unpack header = Some n.
Proof.
  unfold Size.pack, Size.unpack.
  destruct (n <? 2 ^ 64)%N eqn:E; [|discriminate].
  intros H.
  assert (header = Size.le_encode Size.size n) as -> by congruence.
  rewrite le_encode_length. rewrite Nat.eqb_refl.
  rewrite le_decode_encode. apply N.ltb_lt in E.
  f_equal. apply N.mod_small. exact E.
Qed.

Lemma pack_length (n : N) (header : bytes) :
  Size.pack n = Some header -> length header = Size.size.
Proof.
  unfold Size.pack. destruct (n <? 2 ^ 64)%N; [|discriminate].
  intros H.
  assert (header = Size.le_encode Size.size n) as -> by congruence.
  apply le_encode_length.
Qed.

(** ** DataSender.process *)

(** C4, as stated, fails: the call that writes the last byte returns
    False although nothing is pending after it; True comes from the next
    call, which writes nothing. *)
Lemma DataSender_last_write_reports_false :
  DataSender_process (Accepts 1) (mkDataSender ["A"%byte])
  = (Ok false, mkDataSender [], ["A"%byte])
  /\ DataSender_process (Accepts 1) (mkDataSender [])
     = (Ok true, mkDataSender [], [])
  /\ ~ (forall w s r s' sent,
          DataSender_process w s = (Ok r, s', sent) ->
          (r = true <-> _dataPending s' = [])).
Proof.
  split; [reflexivity|]. split; [reflexivity|].
  intros H.
  specialize (H (Accepts 1) (mkDataSender ["A"%byte]) false (mkDataSender [])
                ["A"%byte] eq_refl).
  destruct H as [_ H]. discriminate (H eq_refl).
Qed.

(** C4, amended: a call writes as much of the pending bytes as the
    descriptor accepts and trims exactly the written prefix; it returns
    True if and only if nothing was pending when it was called, in which
    case it writes nothing; a call that writes returns False, also when it
    writes the last byte. *)
Theorem DataSender_process_spec (room : nat) (data : bytes) :
  let '(r, s', sent) := DataSender_process (Accepts room) (mkDataSender data) in
  sent = firstn (Nat.min room (length data)) data
  /\ _dataPending s' = skipn (length sent) data
  /\ sent ++ _dataPending s' = data
  /\ (r = Ok true <-> data = [])
  /\ (r = Ok false <-> data <> []).
Proof.
  destruct data as [|b data].
  - simpl. rewrite Nat.min_0_r. simpl. repeat split; try reflexivity;
      try discriminate; intros H; now elim H.
  - unfold DataSender_process. cbn [_dataPending os_write].
    set (d := b :: data). set (n := Nat.min room (length d)).
    assert (Hn : length (firstn n d) = n).
    { apply firstn_length_le. subst n. lia. }
    rewrite Hn. repeat split; try discriminate; try apply firstn_skipn.
Qed.

(** ** ResponseReader.process *)

Lemma os_read_chunk (b : byte) (bs : bytes) (rest : pipe) (n : nat) :
  (0 < n)%nat ->
  os_read (Avail (b :: bs) :: rest) n
  = (Ok (firstn n (b :: bs)),
     match skipn n (b :: bs) with [] => rest | tl => Avail tl :: rest end).
Proof. destruct n; [lia|reflexivity]. Qed.

Lemma read_retry_chunk (fuel : nat) (b : byte) (bs : bytes) (rest : pipe)
    (n : nat) :
  (0 < n)%nat ->
  read_retry (S fuel) (Avail (b :: bs) :: rest) n
  = (Ok (firstn n (b :: bs)),
     match skipn n (b :: bs) with [] => rest | tl => Avail tl :: rest end).
Proof. intros Hn. cbn [read_retry]. now rewrite os_read_chunk. Qed.

Section ReaderProperties.
Context {RT : Runtime}.

(** At a message boundary a read that returns fewer than 8 bytes is a
    malformed frame: [Size.unpack] raises. *)
Lemma process_short_header (r : ResponseReader) (p p1 : pipe) (buf : bytes) :
  _dataRemaining r = 0%N ->
  os_read p Size.size = (Ok buf, p1) ->
  length buf <> Size.size ->
  ResponseReader_process r p = (Raise StructError, r, p1).
Proof.
  intros Hr Hread Hlen. unfold ResponseReader_process, Size.unpack.
  rewrite Hr, Hread. cbn [N.eqb].
  apply Nat.eqb_neq in Hlen. now rewrite Hlen.
Qed.

(** The read of the header is not retried: any error of it is raised. *)
Lemma process_header_read_fails (r : ResponseReader) (p p1 : pipe) (e : exn) :
  _dataRemaining r = 0%N ->
  os_read p Size.size = (Raise e, p1) ->
  ResponseReader_process r p = (Raise e, r, p1).
Proof.
  intros Hr Hread. unfold ResponseReader_process. now rewrite Hr, Hread.
Qed.

(** A read inside a message that does not bring all the missing bytes:
    the bytes are appended, the count goes down, the call says False. *)
Lemma process_partial (rs : list Response) (remaining : N) (buffer f : bytes)
    (rest : pipe) :
  f <> [] ->
  (N.of_nat (length f) < remaining)%N ->
  ResponseReader_process (mkResponseReader rs remaining buffer)
                         (Avail f :: rest)
  = (Ok false,
     mkResponseReader rs (remaining - N.of_nat (length f))%N (buffer ++ f),
     rest).
Proof.
  intros Hf Hlt. destruct f as [|b f]; [congruence|]. clear Hf.
  unfold ResponseReader_process. cbn [_dataRemaining _responses _dataBuffer].
  assert ((remaining =? 0)%N = false) as -> by (apply N.eqb_neq; lia).
  cbv beta iota zeta. cbn [_dataRemaining _responses _dataBuffer].
  rewrite read_retry_chunk by lia.
  assert (Hlen : (length (b :: f) <= N.to_nat remaining)%nat) by lia.
  rewrite firstn_all2 by exact Hlen.
  rewrite skipn_all2 by exact Hlen.
  assert ((remaining - N.of_nat (length (b :: f)) =? 0)%N = false) as ->
    by (apply N.eqb_neq; lia).
  reflexivity.
Qed.

(** The read that brings the last missing bytes: the call decodes the
    buffer and says True. *)
Lemma process_last (rs : list Response) (remaining : N) (buffer f : bytes)
    (rest : pipe) :
  f <> [] ->
  N.of_nat (length f) = remaining ->
  ResponseReader_process (mkResponseReader rs remaining buffer)
                         (Avail f :: rest)
  = (fst (completed rs (buffer ++ f)), snd (completed rs (buffer ++ f)), rest).
Proof.
  intros Hf Heq. destruct f as [|b f]; [congruence|]. clear Hf.
  assert (Hpos : (0 < remaining)%N) by (cbn [length] in Heq; lia).
  unfold ResponseReader_process. cbn [_dataRemaining _responses _dataBuffer].
  assert ((remaining =? 0)%N = false) as ->
    by (apply N.eqb_neq; simpl in Heq; lia).
  cbv beta iota zeta. cbn [_dataRemaining _responses _dataBuffer].
  rewrite read_retry_chunk by lia.
  assert (Hlen : (length (b :: f) <= N.to_nat remaining)%nat) by lia.
  rewrite firstn_all2 by exact Hlen.
  rewrite skipn_all2 by exact Hlen.
  assert ((remaining - N.of_nat (length (b :: f)) =? 0)%N = true) as ->
    by (apply N.eqb_eq; lia).
  unfold completed.
  replace (remaining - N.of_nat (length (b :: f)))%N with 0%N by lia.
  destruct (json_loads (buffer ++ b :: f)); reflexivity.
Qed.

(** At a message boundary a read that returns the whole header sets the
    count; the call goes on as a call inside the message. *)
Lemma process_header (rs : list Response) (header more : bytes) (n : N)
    (rest : pipe) :
  Size.unpack header = Some n ->
  n <> 0%N ->
  ResponseReader_process (mkResponseReader rs 0%N [])
                         (Avail (header ++ more) :: rest)
  = ResponseReader_process (mkResponseReader rs n [])
                           (match more with
                            | [] => rest
                            | _ => Avail more :: rest
                            end).
Proof.
  intros Hu Hn.
  assert (Hlen : length header = 8%nat).
  { unfold Size.unpack in Hu.
    destruct (Nat.eqb (length header) Size.size) eqn:E; [|discriminate].
    now apply Nat.eqb_eq in E. }
  unfold ResponseReader_process at 1.
  cbn [_dataRemaining _responses _dataBuffer]. rewrite N.eqb_refl.
  destruct header as [|h header]; [discriminate|].
  change ((h :: header) ++ more) with (h :: (header ++ more)).
  unfold Size.size. rewrite os_read_chunk by lia.
  change (h :: (header ++ more)) with ((h :: header) ++ more).
  assert (Hfirst : firstn 8 ((h :: header) ++ more) = h :: header).
  { rewrite <- Hlen.
    now rewrite firstn_app, Nat.sub_diag, firstn_all, firstn_O, app_nil_r. }
  assert (Hskip : skipn 8 ((h :: header) ++ more) = more).
  { rewrite <- Hlen.
    now rewrite skipn_app, Nat.sub_diag, skipn_all, skipn_O. }
  rewrite Hfirst, Hskip, Hu.
  unfold ResponseReader_process.
  cbn [_dataRemaining _responses _dataBuffer].
  assert ((n =? 0)%N = false) as -> by (now apply N.eqb_neq).
  destruct more; reflexivity.
Qed.

Lemma process_calls_fragments (rs : list Response) (fs : list bytes) :
  forall (buffer : bytes) (rest : pipe),
  fs <> [] ->
  Forall (fun f => f <> []) fs ->
  process_calls (length fs)
                (mkResponseReader rs (N.of_nat (length (concat fs))) buffer)
                (map Avail fs ++ rest)
  = (repeat (Ok false) (length fs - 1)
       ++ [fst (completed rs (buffer ++ concat fs))],
     snd (completed rs (buffer ++ concat fs)), rest).
Proof.
  induction fs as [|f fs IH]; intros buffer rest Hne Hall; [congruence|].
  apply Forall_cons_iff in Hall as [Hf Hall].
  destruct fs as [|g fs].
  - cbn [length map app process_calls concat]. rewrite app_nil_r.
    rewrite process_last by (auto; lia).
    unfold completed.
    destruct (json_loads (buffer ++ f)); reflexivity.
  - assert (Hg : g <> []) by (now apply Forall_cons_iff in Hall as [? _]).
    change (length (f :: g :: fs)) with (S (length (g :: fs))).
    cbn [map app process_calls].
    rewrite process_partial.
    + replace (N.of_nat (length (concat (f :: g :: fs))) - N.of_nat (length f))%N
        with (N.of_nat (length (concat (g :: fs)))).
      2:{ cbn [concat]. rewrite !length_app. lia. }
      specialize (IH (buffer ++ f) rest ltac:(discriminate) Hall).
      cbn [map app] in IH. rewrite IH.
      cbn [concat]. rewrite <- !app_assoc.
      replace (S (length (g :: fs)) - 1)%nat
        with (S (length (g :: fs) - 1))%nat by (simpl; lia).
      reflexivity.
    + exact Hf.
    + cbn [concat]. rewrite !length_app.
      destruct g; [congruence|]. simpl. lia.
Qed.

Lemma process_calls_more (calls : nat) :
  forall (r : ResponseReader) (p : pipe) (values : list (res bool))
         (v : res bool) (r' : ResponseReader) (p' : pipe),
  process_calls calls r p = (values ++ [v], r', p') ->
  v <> Ok false ->
  process_calls (S calls) r p = (values ++ [v], r', p').
Proof.
  induction calls as [|calls IH]; intros r p values v r' p' H Hv.
  - simpl in H. destruct values; discriminate.
  - cbn [process_calls] in H. cbn [process_calls].
    destruct (ResponseReader_process r p) as [[[[|]| |] r1] p1] eqn:E;
      try exact H.
    destruct (process_calls calls r1 p1) as [[vs r2] p2] eqn:E2.
    injection H as Hvs <- <-.
    destruct values as [|v0 values].
    + simpl in Hvs. injection Hvs as Hv0 _. congruence.
    + simpl in Hvs. injection Hvs as <- ->.
      cbn [process_calls] in IH. erewrite IH; [reflexivity|exact E2|exact Hv].
Qed.

Lemma completed_not_false (rs : list Response) (payload : bytes) :
  fst (completed rs payload) <> Ok false.
Proof. unfold completed. destruct (json_loads payload); discriminate. Qed.

(** C3, amended: for a well-framed response whose 8-byte header one read
    returns whole, the payload may arrive in any fragments, down to one
    byte per read: every call of [process] appends the bytes it reads and
    lowers the count, says False while bytes are missing, and the call
    that buffers the last byte gives what a single read of the whole
    message gives, the same decoded response in the same reader. *)
Theorem ResponseReader_fragmented_payload (rs : list Response)
    (header payload f0 : bytes) (fs : list bytes) (rest : pipe) :
  payload <> [] ->
  Size.pack (N.of_nat (length payload)) = Some header ->
  f0 ++ concat fs = payload ->
  Forall (fun f => f <> []) fs ->
  let r := mkResponseReader rs 0%N [] in
  ResponseReader_process r (Avail (header ++ payload) :: rest)
  = (fst (completed rs payload), snd (completed rs payload), rest)
  /\ exists k : nat,
       (k <= length fs)%nat
       /\ process_calls (S (length fs)) r
                        (Avail (header ++ f0) :: map Avail fs ++ rest)
          = (repeat (Ok false) k ++ [fst (completed rs payload)],
             snd (completed rs payload), rest).
Proof.
  intros Hne Hpack Hcat Hall r. subst r.
  apply unpack_pack in Hpack.
  assert (Hn : N.of_nat (length payload) <> 0%N).
  { destruct payload; [congruence|]. simpl. lia. }
  split.
  - rewrite (process_header rs header payload _ rest Hpack Hn).
    destruct payload as [|b payload]; [congruence|].
    rewrite process_last by (auto; lia). reflexivity.
  - destruct f0 as [|b f0].
    + simpl in Hcat. subst payload.
      assert (Hfs : fs <> []) by (intros ->; apply Hne; reflexivity).
      exists (length fs - 1)%nat. split; [lia|].
      pose proof (process_calls_fragments rs fs [] rest Hfs Hall) as H.
      apply process_calls_more in H; [|apply completed_not_false].
      cbn [process_calls] in *.
      rewrite (process_header rs header [] _ (map Avail fs ++ rest) Hpack Hn).
      exact H.
    + exists (length fs). split; [lia|].
      assert (Hall' : Forall (fun f => f <> []) ((b :: f0) :: fs))
        by (constructor; [discriminate|exact Hall]).
      pose proof (process_calls_fragments rs ((b :: f0) :: fs) [] rest
                    ltac:(discriminate) Hall') as H.
      cbn [concat] in H. rewrite Hcat in H.
      replace (length ((b :: f0) :: fs) - 1)%nat with (length fs) in H.
      2:{ simpl. lia. }
      change (length ((b :: f0) :: fs)) with (S (length fs)) in H.
      cbn [process_calls map app] in *.
      rewrite (process_header rs header (b :: f0) _ (map Avail fs ++ rest)
                 Hpack Hn).
      exact H.
Qed.

End ReaderProperties.

(** C3, as stated, fails, at the message that frames [{"id": 7}]: when
    it arrives one byte per read the first read returns one byte of the
    header, [Size.unpack] raises, and no response is decoded; a single
    read of the same message gives the response. *)
Lemma ResponseReader_split_header_raises :
  let message := default [] (Size.pack 9) ++ json_id "7" in
  let r := ResponseReader_init in
  ResponseReader_process (RT := example_runtime) r [Avail message]
  = (Ok true,
     mkResponseReader [mkResponse (Some 7) None None None] 0%N [], [])
  /\ process_calls (RT := example_runtime) 17 r
                   (map (fun b => Avail [b]) message)
     = ([Raise StructError], r,
        map (fun b => Avail [b]) (tail message)).
Proof. vm_compute. split; reflexivity. Qed.

(** The amended statement at the message that frames [{"id": 7}], which
    arrives as the header and then one byte per read. *)
Lemma ResponseReader_fragmented_payload_witness :
  let header := default [] (Size.pack 9) in
  let payload := json_id "7" in
  ResponseReader_process (RT := example_runtime) ResponseReader_init
                         [Avail (header ++ payload)]
  = (fst (completed (RT := example_runtime) [] payload),
     snd (completed (RT := example_runtime) [] payload), [])
  /\ exists k : nat,
       (k <= 9)%nat
       /\ process_calls (RT := example_runtime) 10 ResponseReader_init
                        (Avail header :: map (fun b => Avail [b]) payload)
          = (repeat (Ok false) k
               ++ [fst (completed (RT := example_runtime) [] payload)],
             snd (completed (RT := example_runtime) [] payload), []).
Proof.
  apply (ResponseReader_fragmented_payload (RT := example_runtime) []
           (default [] (Size.pack 9)) (json_id "7") []
           (map (fun b => [b]) (json_id "7")) []).
  - discriminate.
  - reflexivity.
  - reflexivity.
  - repeat constructor; discriminate.
Defined.

(** ** Log reassembly *)

Lemma is_newline_false (b : byte) :
  is_newline b = false -> Byte.eqb b LF = false /\ Byte.eqb b CR = false.
Proof. unfold is_newline. now intros [? ?]%orb_false_elim. Qed.

(** A text without line ends is at most one unterminated line. *)
Lemma splitlines_no_newline (cur : bytes) :
  Forall (fun b => is_newline b = false) cur ->
  splitlines cur = match cur with [] => [] | _ => [cur] end.
Proof.
  induction 1 as [|b cur Hb Hcur IH]; [reflexivity|].
  apply is_newline_false in Hb as [HLF HCR].
  cbn [splitlines]. rewrite HLF, HCR, IH. now destruct cur.
Qed.

(** The first line of a text ends at its first line feed when no carriage
    return comes before. *)
Lemma splitlines_first_line (cur rest : bytes) :
  Forall (fun b => is_newline b = false) cur ->
  splitlines (cur ++ LF :: rest) = (cur ++ [LF]) :: splitlines rest.
Proof.
  induction 1 as [|b cur Hb Hcur IH]; [reflexivity|].
  apply is_newline_false in Hb as [HLF HCR].
  cbn [app splitlines]. now rewrite HLF, HCR, IH.
Qed.

Lemma endswith_LF_snoc (cur : bytes) : endswith_LF (cur ++ [LF]) = true.
Proof. unfold endswith_LF. now rewrite last_snoc. Qed.

Lemma endswith_LF_no_newline (cur : bytes) :
  Forall (fun b => is_newline b = false) cur -> endswith_LF cur = false.
Proof.
  intros H. unfold endswith_LF.
  destruct (last cur) as [b|] eqn:E; [|reflexivity].
  apply last_Some_elem_of in E.
  rewrite Forall_forall in H. apply H in E.
  now apply is_newline_false in E as [? _].
Qed.

Section LogProperties.
Context {RT : Runtime}.

(** What a call does depends on the buffered partial line and the new
    bytes only through their concatenation. *)
Lemma _processLogs_concat (data partial : bytes) :
  _processLogs data partial = process_lines (splitlines (partial ++ data)) [].
Proof. unfold _processLogs. now destruct partial. Qed.

Lemma process_no_newline (cur : bytes) :
  Forall (fun b => is_newline b = false) cur ->
  process_lines (splitlines cur) [] = ([], cur).
Proof.
  intros H. rewrite splitlines_no_newline by exact H.
  destruct cur as [|b cur]; [reflexivity|].
  cbn [process_lines]. now rewrite endswith_LF_no_newline.
Qed.

Lemma process_first_line (cur rest : bytes) :
  Forall (fun b => is_newline b = false) cur ->
  process_lines (splitlines (cur ++ LF :: rest)) []
  = (log_line (cur ++ [LF]) ++ fst (process_lines (splitlines rest) []),
     snd (process_lines (splitlines rest) [])).
Proof.
  intros H. rewrite splitlines_first_line by exact H.
  cbn [process_lines]. rewrite endswith_LF_snoc. cbn [negb].
  now destruct (process_lines (splitlines rest) []).
Qed.

(** Cutting a text after a part without carriage returns: the lines of
    the whole are the lines of the part, then the lines of what the part
    left over followed by the rest. *)
Lemma process_lines_cut (d1 d2 : bytes) :
  Forall (fun b => Byte.eqb b CR = false) d1 ->
  forall cur : bytes,
  Forall (fun b => is_newline b = false) cur ->
  let whole := process_lines (splitlines (cur ++ d1 ++ d2)) [] in
  let part := process_lines (splitlines (cur ++ d1)) [] in
  let next := process_lines (splitlines (snd part ++ d2)) [] in
  whole = (fst part ++ fst next, snd next)
  /\ Forall (fun b => is_newline b = false) (snd part).
Proof.
  induction 1 as [|b d1 Hb Hd1 IH]; intros cur Hcur; cbn zeta.
  - rewrite app_nil_r, (process_no_newline cur Hcur). cbn [fst snd app].
    split; [|exact Hcur].
    now destruct (process_lines (splitlines (cur ++ d2)) []).
  - destruct (Byte.eqb b LF) eqn:HLF.
    + apply Byte.byte_dec_bl in HLF. subst b.
      change (cur ++ (LF :: d1) ++ d2) with (cur ++ LF :: ([] ++ d1 ++ d2)).
      change (cur ++ LF :: d1) with (cur ++ LF :: ([] ++ d1)).
      rewrite !process_first_line by exact Hcur.
      destruct (IH [] ltac:(constructor)) as [IH1 IH2]. cbn zeta in IH1.
      rewrite IH1. cbn [fst snd]. split; [|exact IH2].
      now rewrite app_assoc.
    + assert (Hcur' : Forall (fun b => is_newline b = false) (cur ++ [b])).
      { apply Forall_app. split; [exact Hcur|].
        constructor; [|constructor]. unfold is_newline. now rewrite HLF, Hb. }
      destruct (IH (cur ++ [b]) Hcur') as [IH1 IH2]. cbn zeta in IH1.
      replace ((cur ++ [b]) ++ d1 ++ d2) with (cur ++ (b :: d1) ++ d2) in IH1
        by now rewrite <- app_assoc.
      replace ((cur ++ [b]) ++ d1) with (cur ++ b :: d1) in IH1, IH2
        by now rewrite <- app_assoc.
      split; [exact IH1|exact IH2].
Qed.

(** Reassembly holds on streams without carriage returns: the reads of a
    channel, cut anywhere, give the logger calls and the leftover of a
    single read of the whole stream. *)
Lemma feed_logs_reassembly (chunks : list bytes) :
  Forall (Forall (fun b => Byte.eqb b CR = false)) chunks ->
  forall partial : bytes,
  Forall (fun b => is_newline b = false) partial ->
  feed_logs chunks partial = _processLogs (concat chunks) partial.
Proof.
  induction 1 as [|data chunks Hdata Hchunks IH]; intros partial Hp.
  - cbn [feed_logs concat]. rewrite _processLogs_concat, app_nil_r.
    now rewrite process_no_newline.
  - cbn [feed_logs concat]. rewrite !_processLogs_concat.
    destruct (process_lines_cut data (concat chunks) Hdata partial Hp)
      as [Hcut Hleft]. cbn zeta in Hcut.
    rewrite Hcut.
    destruct (process_lines (splitlines (partial ++ data)) [])
      as [acts partial1] eqn:E.
    cbn [fst snd] in *. rewrite (IH partial1 Hleft), _processLogs_concat.
    now destruct (process_lines (splitlines (partial1 ++ concat chunks)) []).
Qed.


End LogProperties.


(** C7 fails on the code at a stream with a carriage return inside a
    line. [splitlines] ends a line at the carriage return, the loop takes
    that line for the unterminated tail, stores it and returns: the lines
    after it in the same read are lost. Read whole, the stream below gives
    no logger call; cut after its first line feed it gives two. *)
Lemma processLogs_carriage_return_loses_lines :
  let part1 := ascii "a" ++ [CR] ++ ascii "b" ++ [LF] in
  let part2 := [LF] ++ ascii "INFO|d|y" ++ [LF] in
  feed_logs (RT := example_runtime) [part1 ++ part2] []
  = ([], ascii "a" ++ [CR])
  /\ feed_logs (RT := example_runtime) [part1; part2] []
     = ([InvalidLogMessage (pystr_of_string "a" ++ [13; 10]%N);
         Sublog INFO (pystr_of_string "y")], []).
Proof. vm_compute. split; reflexivity. Qed.

(** The complete line [INFO|d|c] after a line with a carriage return
    reaches no sink, however the stream is cut. *)
Lemma processLogs_line_after_carriage_return_unrouted :
  let stream := ascii "INFO|d|a" ++ [CR] ++ ascii "b" ++ [LF]
                ++ ascii "INFO|d|c" ++ [LF] in
  feed_logs (RT := example_runtime) [stream] []
  = ([], ascii "INFO|d|a" ++ [CR])
  /\ feed_logs (RT := example_runtime)
               [firstn 11 stream; skipn 11 stream] []
     = ([], ascii "INFO|d|a" ++ [CR]).
Proof. vm_compute. split; reflexivity. Qed.

(** ** The crash handler *)

Lemma fail_list_lookup (locs : list loc) (h : gmap loc CmdResult) (l : loc) :
  l ∈ locs ->
  foldr (fun l acc => resolve l crash_result acc) h locs !! l
  = Some (mkCmdResult true (Some crash_result)).
Proof.
  induction locs as [|l0 locs IH]; intros Hin.
  - now apply elem_of_nil in Hin.
  - cbn [foldr]. unfold resolve at 1.
    destruct (decide (l0 = l)) as [->|Hne].
    + apply lookup_insert_eq.
    + rewrite lookup_insert_ne by exact Hne.
      apply IH. apply elem_of_cons in Hin as [->|Hin]; [congruence|exact Hin].
Qed.

Lemma fail_list_is_Some (locs : list loc) (h : gmap loc CmdResult) (l : loc) :
  is_Some (h !! l) ->
  is_Some (foldr (fun l acc => resolve l crash_result acc) h locs !! l).
Proof.
  intros H. induction locs as [|l0 locs IH]; [exact H|].
  cbn [foldr]. unfold resolve at 1.
  destruct (decide (l0 = l)) as [->|Hne].
  - rewrite lookup_insert_eq. eauto.
  - now rewrite lookup_insert_ne.
Qed.

(** The loop of the handler gives every object of the table the crash
    result and sets its event. *)
Lemma fail_all_lookup (pending : gmap Z loc) (h : gmap loc CmdResult)
    (reqId : Z) (l : loc) :
  pending !! reqId = Some l ->
  fail_all pending h !! l = Some (mkCmdResult true (Some crash_result)).
Proof.
  intros H. unfold fail_all. apply fail_list_lookup.
  apply list_elem_of_fmap. exists (reqId, l). split; [reflexivity|].
  now apply elem_of_map_to_list.
Qed.

(** Taking a hypothesis on the result of a handler apart, branch by
    branch. *)
Ltac branches E :=
  repeat (match type of E with
          | context [match ?x with _ => _ end] => destruct x eqn:?
          end; try discriminate E).

Ltac handler_cases ev E :=
  destruct ev; cbn [handle_event] in E;
  unfold on_logs, on_response, on_wakeup, on_write, _getRequestId in E;
  branches E; injection E as <- <-.

Section CrashProperties.
Context {RT : Runtime}.

Lemma for_events_app (before after : list ready) (w w1 : World) :
  for_events before w = (Continue, w1) ->
  for_events (before ++ after) w = for_events after w1.
Proof.
  revert w. induction before as [|ev before IH]; intros w H.
  - cbn in H. now injection H as <-.
  - cbn [app for_events] in *.
    destruct (handle_event ev w) as [[| | |] w'] eqn:E; try discriminate.
    now apply IH.
Qed.

(** Every error of the crash path raises out of the loop body, with the
    table, the store and the client as they were. *)
Lemma fatal_raises (w : World) (ev : ready) :
  fatal w ev ->
  exists (e : exn) (w' : World),
    handle_event ev w = (Raised e, w')
    /\ pendingRequests (w_comm w') = pendingRequests (w_comm w)
    /\ w_heap w' = w_heap w
    /\ w_client w' = w_client w
    /\ w_trace w' = w_trace w.
Proof.
  destruct 1 as [fd|fd p e H|p e H|p e H|p rr p' rsp rr' H1 H2 H3
                 |e ping b data H|wr ping e H1 H2]; cbn [handle_event].
  - eauto 10.
  - unfold on_logs. rewrite H. eauto 10.
  - unfold on_wakeup. rewrite H. eauto 10.
  - unfold on_response.
    destruct (ResponseReader_process (responseReader (w_comm w)) p)
      as [[v rr] p'] eqn:E.
    cbn [fst] in H. subst v. eexists _, _. split; [reflexivity|].
    now repeat split.
  - unfold on_response. rewrite H1, H2, H3.
    eexists _, _. split; [reflexivity|]. now repeat split.
  - unfold on_write. rewrite H. cbn. eauto 10.
  - unfold on_write. rewrite H1. cbn. rewrite H2. eauto 10.
Qed.

(** The loop body never changes the two flags of the client and never
    drops an object from the store. *)
Lemma handle_event_frame (ev : ready) (w w' : World) (f : flow) :
  handle_event ev w = (f, w') ->
  _isRunning (w_client w') = _isRunning (w_client w)
  /\ _eventFds_open (w_client w') = _eventFds_open (w_client w)
  /\ forall l : loc, is_Some (w_heap w !! l) -> is_Some (w_heap w' !! l).
Proof.
  intros E. handler_cases ev E; cbn; repeat split; auto.
  intros l0 H. unfold resolve. rewrite lookup_insert.
  case_decide; eauto.
Qed.

Lemma for_events_frame (evs : list ready) :
  forall (w w' : World) (f : flow),
  for_events evs w = (f, w') ->
  _isRunning (w_client w') = _isRunning (w_client w)
  /\ _eventFds_open (w_client w') = _eventFds_open (w_client w)
  /\ forall l : loc, is_Some (w_heap w !! l) -> is_Some (w_heap w' !! l).
Proof.
  induction evs as [|ev evs IH]; intros w w' f H.
  - cbn in H. injection H as <- <-. auto.
  - cbn [for_events] in H.
    destruct (handle_event ev w) as [f1 w1] eqn:E.
    apply handle_event_frame in E as (E1 & E2 & E3).
    assert (Hcases : (f1 = Continue /\ for_events evs w1 = (f, w'))
                     \/ (f1, w1) = (f, w')).
    { destruct f1; auto. }
    destruct Hcases as [[_ Hrest]|Hstop].
    + apply IH in Hrest as (R1 & R2 & R3).
      rewrite R1, R2, E1, E2. auto.
    + injection Hstop as <- <-. auto.
Qed.

(** A turn of the loop that meets an error of the crash path goes
    through the handler, with the table and the store as the error found
    them. *)
Lemma crash_turn (s : System) (m : Comm) (t : tick)
    (before after : list ready) (ev : ready) (w1 : World) :
  engine s = Running m ->
  ioproc_alive t = true ->
  _isRunning (client s) = true ->
  polled t = PollReturns (before ++ ev :: after) ->
  for_events before (mkWorld (client s) m (heap s) (trace s)) = (Continue, w1) ->
  fatal w1 ev ->
  engine_turn t s
  = mkSystem (_run (w_client w1)) (Running Comm_init)
             (fail_all (pendingRequests (w_comm w1)) (w_heap w1))
             (w_trace w1 ++ [IOProcessFailure; Killed; Spawned]).
Proof.
  intros Hm Halive Hrun Hpoll Hbefore Hfatal.
  destruct (fatal_raises w1 ev Hfatal) as (e & w' & Hev & Hp & Hh & Hc & Ht).
  apply for_events_frame in Hbefore as Hframe. cbn in Hframe.
  destruct Hframe as (Hrun1 & _ & _).
  unfold engine_turn, iteration.
  rewrite Hm, Hpoll, Halive. cbn [w_client negb]. rewrite Hrun. cbn [negb].
  rewrite (for_events_app _ _ _ _ Hbefore).
  cbn [for_events]. rewrite Hev.
  unfold finish. cbn [w_client w_comm w_heap w_trace].
  rewrite Hc, Hrun1, Hrun. cbn [andb].
  now rewrite Hp, Hh, Ht, <- app_assoc.
Qed.

(** The crash path, where the loop takes it: when the body of the loop
    raises (a descriptor with an error or hangup flag, as when the worker
    is killed; a read or write that fails; a frame the reader rejects; a
    response without id), every object still in the table gets the crash
    result, with errcode [ERR_IOPROCESS_CRASH] = 100001, and has its
    event set; the worker is killed and, the client being open, a new
    worker and a new run with an empty table are started. *)
Lemma crash_fails_every_pending_request (s : System) (m : Comm) (t : tick)
    (before after : list ready) (ev : ready) (w1 : World) :
  engine s = Running m ->
  ioproc_alive t = true ->
  _isRunning (client s) = true ->
  polled t = PollReturns (before ++ ev :: after) ->
  for_events before (mkWorld (client s) m (heap s) (trace s)) = (Continue, w1) ->
  fatal w1 ev ->
  let s' := engine_turn t s in
  (forall (reqId : Z) (l : loc),
      pendingRequests (w_comm w1) !! reqId = Some l ->
      heap s' !! l = Some (mkCmdResult true (Some crash_result))
      /\ is_set l s' = true)
  /\ r_errcode crash_result = Some 100001
  /\ engine s' = Running Comm_init
  /\ trace s' = w_trace w1 ++ [IOProcessFailure; Killed; Spawned].
Proof.
  intros Hm Halive Hrun Hpoll Hbefore Hfatal s'. subst s'.
  rewrite (crash_turn s m t before after ev w1) by assumption.
  cbn [heap engine trace]. repeat split.
  - now apply fail_all_lookup with reqId.
  - unfold is_set. cbn [heap].
    now rewrite (fail_all_lookup _ _ reqId l H).
Qed.

(** A read that leaves the message incomplete makes the loop return:
    the worker is killed and a new generation started, while the store is
    left as it is, so the requests of the table stay unresolved. *)
Lemma incomplete_read_ends_generation (s : System) (m : Comm) (p p' : pipe)
    (rr : ResponseReader) :
  engine s = Running m ->
  _isRunning (client s) = true ->
  ResponseReader_process (responseReader m) p = (Ok false, rr, p') ->
  engine_turn (mkTick true (PollReturns [ResponseReady p])) s
  = mkSystem (_run (client s)) (Running Comm_init) (heap s)
             (trace s ++ [Killed; Spawned]).
Proof.
  intros Hm Hrun Hproc. unfold engine_turn, iteration. rewrite Hm.
  cbn [polled ioproc_alive negb w_client]. rewrite Hrun.
  cbn [negb for_events handle_event]. unfold on_response.
  cbn [w_comm]. rewrite Hproc. unfold finish.
  cbn [w_client set_comm w_heap w_trace]. now rewrite Hrun.
Qed.

(** When [poll] itself raises, the local [real_ioproc] is None in the
    handler, the handler stops at its first line, and the store is left
    as it is. *)
Lemma poll_failure_skips_handler (s : System) (m : Comm) (t : tick)
    (errno : Z) :
  engine s = Running m ->
  polled t = PollFails errno ->
  heap (engine_turn t s) = heap s.
Proof.
  intros Hm Hpoll. unfold engine_turn, iteration, finish.
  rewrite Hm, Hpoll. cbn [w_client w_heap].
  now destruct (ioproc_alive t && _).
Qed.

End CrashProperties.

(** ** The caller: [_sendCommand] *)

Section CallerProperties.
Context {RT : Runtime}.

Lemma fail_all_is_Some (pending : gmap Z loc) (h : gmap loc CmdResult)
    (l : loc) :
  is_Some (h !! l) -> is_Some (fail_all pending h !! l).
Proof. apply fail_list_is_Some. Qed.

Lemma finish_heap (how : ending) (w : World) (l : loc) :
  is_Some (w_heap w !! l) -> is_Some (heap (finish how w) !! l).
Proof.
  intros H. unfold finish.
  destruct how as [a|e [|] a]; cbn [w_heap w_client];
    destruct (a && _); cbn [heap]; auto using fail_all_is_Some.
Qed.

Lemma engine_turn_heap (t : tick) (s : System) (l : loc) :
  is_Some (heap s !! l) -> is_Some (heap (engine_turn t s) !! l).
Proof.
  intros H. unfold engine_turn.
  destruct (engine s) as [m| |]; try exact H.
  unfold iteration.
  destruct (polled t) as [e|evs]; [now apply finish_heap|].
  destruct (negb (ioproc_alive t)); [now apply finish_heap|].
  destruct (negb (_isRunning _)); [now apply finish_heap|].
  destruct (for_events evs _) as [f w'] eqn:E.
  apply for_events_frame in E as (_ & _ & E). cbn in E.
  destruct f; cbn [heap]; try apply finish_heap; auto.
Qed.

(** No step of the system drops an object from the store. *)
Lemma step_heap (i : input) (s : System) (l : loc) :
  is_Some (heap s !! l) -> is_Some (heap (step i s) !! l).
Proof.
  intros H. destruct i as [t|cmdName args ping|ping]; cbn [step].
  - now apply engine_turn_heap.
  - unfold _sendCommand_enqueue.
    destruct (_pingPoller _ _); cbn [snd heap];
      rewrite lookup_insert; case_decide; eauto.
  - exact H.
Qed.

Lemma wait_heap (l : loc) (during : list input) :
  forall s : System,
  is_Some (heap s !! l) -> is_Some (heap (wait l during s) !! l).
Proof.
  induction during as [|i during IH]; intros s H; cbn [wait]; [exact H|].
  destruct (is_set l s); [exact H|]. apply IH. now apply step_heap.
Qed.

Lemma enqueue_heap (cmdName : string) (args : json) (ping : fd_write)
    (s s1 : System) (l : loc) :
  _sendCommand_enqueue cmdName args ping s = (Ok l, s1) ->
  heap s1 !! l = Some (mkCmdResult false None)
  /\ heap s !! l = None
  /\ _commandQueue (client s1) = _commandQueue (client s) ++ [(cmdName, args, l)]
  /\ _reqId (client s1) = _reqId (client s)
  /\ engine s1 = engine s
  /\ trace s1 = trace s.
Proof.
  unfold _sendCommand_enqueue. intros H.
  destruct (_pingPoller _ _); try discriminate.
  injection H as <- <-. cbn. rewrite lookup_insert_eq.
  repeat split. apply not_elem_of_dom. apply is_fresh.
Qed.


(** C6: when the event is not set within the time of the wait,
    [_sendCommand] raises [Timeout] and leaves the system as the others
    left it: the caller removes nothing from the table. An entry of the
    table that refers to the caller's object stays there; a response with
    its id that arrives later is stored in the object, the event is set
    and the entry is removed by the loop; an error of the crash path
    gives the object the crash result. *)
Theorem _sendCommand_timeout (cmdName : string) (args : json)
    (ping : fd_write) (during : list input) (s s1 : System) (l : loc) :
  _sendCommand_enqueue cmdName args ping s = (Ok l, s1) ->
  is_set l (wait l during s1) = false ->
  let s' := wait l during s1 in
  _sendCommand cmdName args ping during s = (Raise Timeout, s')
  /\ forall (m : Comm) (reqId : Z),
       engine s' = Running m ->
       pendingRequests m !! reqId = Some l ->
       _isRunning (client s') = true ->
       (forall (p p' : pipe) (rr rr' : ResponseReader) (rsp : Response),
           ResponseReader_process (responseReader m) p = (Ok true, rr, p') ->
           ResponseReader_pop rr = Some (rsp, rr') ->
           r_id rsp = Some reqId ->
           let s'' :=
             engine_turn (mkTick true (PollReturns [ResponseReady p])) s' in
           heap s'' !! l = Some (mkCmdResult true (Some rsp))
           /\ engine s''
              = Running (mkComm (dataSender m)
                                (delete reqId (pendingRequests m)) rr'))
       /\ (forall ev : ready,
             fatal (mkWorld (client s') m (heap s') (trace s')) ev ->
             heap (engine_turn (mkTick true (PollReturns [ev])) s') !! l
             = Some (mkCmdResult true (Some crash_result))).
Proof.
  intros Henq Hunset s'. split.
  - unfold _sendCommand, _sendCommand_result. rewrite Henq. fold s'.
    apply enqueue_heap in Henq as (Hl & _).
    destruct (wait_heap l during s1 ltac:(rewrite Hl; eauto)) as [r Hr].
    fold s' in Hr. unfold is_set in Hunset. fold s' in Hunset.
    rewrite Hr in *. now rewrite Hunset.
  - intros m reqId Hm Hentry Hrun. split.
    + intros p p' rr rr' rsp Hproc Hpop Hid s''. subst s''.
      unfold engine_turn, iteration. rewrite Hm.
      cbn [polled ioproc_alive negb w_client]. rewrite Hrun.
      cbn [negb for_events handle_event]. unfold on_response.
      cbn [w_comm]. rewrite Hproc, Hpop, Hid, Hentry.
      cbn [heap engine w_heap w_comm]. unfold resolve.
      now rewrite lookup_insert_eq.
    + intros ev Hfatal.
      rewrite (crash_turn s' m _ [] [] ev
                 (mkWorld (client s') m (heap s') (trace s')))
        by (assumption || reflexivity).
      cbn [heap w_comm pendingRequests]. now apply fail_all_lookup with reqId.
Qed.

End CallerProperties.



(** C6 at an [echo] call that is dispatched and written but not answered
    while the caller waits. *)
Lemma _sendCommand_timeout_witness :
  fst (_sendCommand (RT := example_runtime) "echo" (JObj []) (Accepts 1)
         [wakeup_turn; write_turn; write_turn] IOProcess_new)
  = Raise Timeout.
Proof.
  pose proof (_sendCommand_timeout (RT := example_runtime) "echo" (JObj [])
                (Accepts 1) [wakeup_turn; write_turn; write_turn] IOProcess_new
                (snd (_sendCommand_enqueue "echo"
                        (JObj []) (Accepts 1) IOProcess_new))
                0%nat) as H.
  destruct H as [H _].
  - vm_compute. reflexivity.
  - vm_compute. reflexivity.
  - rewrite H. reflexivity.
Defined.

(** The crash path at a client with one request dispatched when the
    response pipe hangs up. *)
Lemma crash_fails_every_pending_request_witness :
  let s := run (RT := example_runtime)
               [Caller "echo" (JObj []) (Accepts 1); wakeup_turn] IOProcess_new in
  let s' := engine_turn (RT := example_runtime) hangup_turn s in
  heap s' !! 0%nat = Some (mkCmdResult true (Some crash_result))
  /\ engine s' = Running Comm_init.
Proof.
  intros s s'.
  destruct (crash_fails_every_pending_request (RT := example_runtime) s
              (mkComm (Some (mkDataSender (framed (ascii "echo"))))
                      {[1 := 0%nat]} ResponseReader_init)
              hangup_turn [] [] (ErrorReady ReadPipe)
              (mkWorld (client s)
                 (mkComm (Some (mkDataSender (framed (ascii "echo"))))
                         {[1 := 0%nat]} ResponseReader_init)
                 (heap s) (trace s)))
    as (H & _ & He & _).
  - vm_compute. reflexivity.
  - reflexivity.
  - reflexivity.
  - reflexivity.
  - reflexivity.
  - constructor.
  - split; [|exact He]. apply (H 1 0%nat). reflexivity.
Defined.

(** ** Request ids *)

Lemma dispatched_ids_app (tr1 tr2 : list action) :
  dispatched_ids (tr1 ++ tr2) = dispatched_ids tr1 ++ dispatched_ids tr2.
Proof.
  induction tr1 as [|a tr1 IH]; [reflexivity|].
  destruct a; cbn [app dispatched_ids]; now rewrite ?IH.
Qed.

Lemma seqZ_snoc (n : Z) : 0 <= n -> seqZ 1 (n + 1) = seqZ 1 n ++ [n + 1].
Proof.
  intros H. rewrite seqZ_app by lia. f_equal.
  rewrite seqZ_cons by lia. rewrite seqZ_nil by lia. f_equal. lia.
Qed.

(** Ids of a strictly increasing run: what comes first is smaller. *)
Lemma seqZ_split_lt (n : Z) (before after : list Z) (i j : Z) :
  seqZ 1 n = before ++ after -> i ∈ before -> j ∈ after -> i < j.
Proof.
  intros Hsplit [k Hk]%list_elem_of_lookup [k' Hk']%list_elem_of_lookup.
  assert (Hi : seqZ 1 n !! k = Some i).
  { rewrite Hsplit. now apply lookup_app_l_Some. }
  assert (Hj : seqZ 1 n !! (length before + k')%nat = Some j).
  { rewrite Hsplit. now rewrite lookup_app_r, Nat.add_comm, Nat.add_sub by lia. }
  apply lookup_seqZ in Hi as [-> _]. apply lookup_seqZ in Hj as [-> _].
  apply lookup_lt_Some in Hk. lia.
Qed.

Section IdProperties.
Context {RT : Runtime}.

Lemma log_line_no_dispatch (line : bytes) : dispatched_ids (log_line line) = [].
Proof.
  unfold log_line.
  destruct (str_split BAR 2 (strip (decode_replace line)))
    as [|? [|? [|? [|? ?]]]]; try reflexivity.
  repeat case_bool_decide; reflexivity.
Qed.

Lemma process_lines_no_dispatch (lines : list bytes) (partial : bytes) :
  dispatched_ids (fst (process_lines lines partial)) = [].
Proof.
  induction lines as [|line lines IH]; [reflexivity|].
  cbn [process_lines]. destruct (negb (endswith_LF line)); [reflexivity|].
  destruct (process_lines lines partial) as [acts p]. cbn [fst] in *.
  now rewrite dispatched_ids_app, log_line_no_dispatch, IH.
Qed.

Lemma _processLogs_no_dispatch (data partial partial' : bytes)
    (acts : list action) :
  _processLogs data partial = (acts, partial') -> dispatched_ids acts = [].
Proof.
  rewrite _processLogs_concat. intros H.
  pose proof (process_lines_no_dispatch (splitlines (partial ++ data)) [])
    as Hn.
  now rewrite H in Hn.
Qed.

Lemma handle_event_ok (ev : ready) (w w' : World) (f : flow) :
  world_ok w -> handle_event ev w = (f, w') -> world_ok w'.
Proof.
  unfold world_ok, ids_consistent. intros (H0 & Hids & Hpend) E.
  handler_cases ev E; cbn; try (split; [assumption|split; assumption]).
  all: try match goal with
           | H : _processLogs _ _ = _ |- _ =>
               apply _processLogs_no_dispatch in H
           end.
  all: rewrite ?dispatched_ids_app; cbn [dispatched_ids].
  all: rewrite ?app_nil_r.
  all: try match goal with
           | H : dispatched_ids ?l = [] |- _ => rewrite H, ?app_nil_r
           end.
  all: try (split; [assumption|split; assumption]).
  all: try (split; [assumption|split; [assumption|]];
            intros reqId [x Hx]; apply lookup_delete_Some in Hx as [_ Hx];
            apply Hpend; eauto).
  all: split; [lia|split; [rewrite seqZ_snoc by lia; now rewrite Hids|]].
  all: intros reqId [x Hx]; rewrite lookup_insert in Hx; case_decide;
    [lia|]; assert (1 <= reqId <= _reqId (w_client w)) by (apply Hpend; eauto);
    lia.
Qed.

Lemma for_events_ok (evs : list ready) :
  forall (w w' : World) (f : flow),
  world_ok w -> for_events evs w = (f, w') -> world_ok w'.
Proof.
  induction evs as [|ev evs IH]; intros w w' f Hok H.
  - cbn in H. now injection H as <- <-.
  - cbn [for_events] in H.
    destruct (handle_event ev w) as [f1 w1] eqn:E.
    apply (handle_event_ok _ _ _ _ Hok) in E.
    destruct f1; try (injection H as <- <-; exact E).
    now apply (IH w1 w' f).
Qed.

Lemma finish_ok (how : ending) (w : World) :
  world_ok w -> system_ok (finish how w).
Proof.
  unfold world_ok, system_ok, ids_consistent. intros (H0 & Hids & Hpend).
  unfold finish.
  destruct how as [a|e [|] a]; cbn [w_client w_trace];
    destruct (a && _); cbn; rewrite ?dispatched_ids_app, ?app_nil_r;
    (split; [assumption|split; [assumption|]]);
    intros reqId [x Hx]; now rewrite lookup_empty in Hx.
Qed.

Lemma engine_turn_ok (t : tick) (s : System) :
  system_ok s -> system_ok (engine_turn t s).
Proof.
  intros Hok. unfold engine_turn.
  destruct (engine s) as [m| |] eqn:Hm; try exact Hok.
  assert (Hw : world_ok (mkWorld (client s) m (heap s) (trace s))).
  { unfold system_ok in Hok. now rewrite Hm in Hok. }
  unfold iteration.
  destruct (polled t) as [e|evs]; [now apply finish_ok|].
  destruct (negb (ioproc_alive t)); [now apply finish_ok|].
  destruct (negb (_isRunning _)).
  { apply finish_ok. unfold world_ok, ids_consistent in *. cbn in *.
    now rewrite dispatched_ids_app, app_nil_r. }
  destruct (for_events evs _) as [f w'] eqn:E.
  apply (for_events_ok _ _ _ _ Hw) in E.
  destruct f; try (now apply finish_ok).
  - exact E.
  - unfold system_ok. cbn. destruct E as (E0 & Eids & _).
    split; [assumption|split; [assumption|]].
    intros reqId [x Hx]. now rewrite lookup_empty in Hx.
Qed.

Lemma step_ok (i : input) (s : System) : system_ok s -> system_ok (step i s).
Proof.
  intros Hok. destruct i as [t|cmdName args ping|ping]; cbn [step].
  - now apply engine_turn_ok.
  - unfold _sendCommand_enqueue. now destruct (_pingPoller _ _).
  - unfold close, system_ok in *.
    destruct (negb (_isRunning (client s))); [exact Hok|].
    now destruct (_pingPoller _ _).
Qed.

Lemma run_ok (inputs : list input) :
  forall s : System, system_ok s -> system_ok (run inputs s).
Proof.
  unfold run. induction inputs as [|i inputs IH]; intros s Hok; [exact Hok|].
  cbn [fold_left]. apply IH. now apply step_ok.
Qed.

Lemma IOProcess_new_ok : system_ok IOProcess_new.
Proof.
  unfold system_ok, ids_consistent. cbn. split; [lia|split; [reflexivity|]].
  intros reqId [x Hx]. now rewrite lookup_empty in Hx.
Qed.

(** C2, amended: the id of a request is given by the loop when it takes
    the command off the queue, by [_getRequestId] on the client, from the
    counter of the client: the ids given out are 1, 2, 3, ... in the
    order of the dequeues. [_sendCommand] puts the command on the queue
    without an id and leaves the counter alone. The id given at a dequeue
    is above every id of the table, so no id is reused while a request
    with it is outstanding. *)
Theorem request_ids_given_at_dequeue (inputs : list input) :
  let s := run inputs IOProcess_new in
  dispatched_ids (trace s) = seqZ 1 (_reqId (client s))
  /\ (forall (cmdName : string) (args : json) (ping : fd_write),
        let s1 := snd (_sendCommand_enqueue cmdName args ping s) in
        _reqId (client s1) = _reqId (client s)
        /\ trace s1 = trace s
        /\ exists l : loc,
             _commandQueue (client s1)
             = _commandQueue (client s) ++ [(cmdName, args, l)])
  /\ (forall (m : Comm) (p : pipe) (data : bytes) (methodName : string)
             (args : json) (l : loc) (queue : list (string * json * loc)),
        engine s = Running m ->
        dataSender m = None ->
        _commandQueue (client s) = (methodName, args, l) :: queue ->
        fst (os_read p 1) = Ok data ->
        let w' := snd (on_wakeup p (mkWorld (client s) m (heap s) (trace s))) in
        _reqId (w_client w') = _reqId (client s) + 1
        /\ w_trace w' = trace s ++ [Dispatched (_reqId (client s) + 1) l]
        /\ pendingRequests (w_comm w')
           = <[_reqId (client s) + 1 := l]> (pendingRequests m)
        /\ pendingRequests m !! (_reqId (client s) + 1) = None)
  /\ (forall (m : Comm) (reqId : Z),
        engine s = Running m ->
        is_Some (pendingRequests m !! reqId) ->
        1 <= reqId <= _reqId (client s)).
Proof.
  intros s.
  pose proof (run_ok inputs _ IOProcess_new_ok) as Hok. fold s in Hok.
  destruct Hok as (H0 & Hids & Hpend).
  split; [exact Hids|]. split; [|split].
  - intros cmdName args ping s1. subst s1. unfold _sendCommand_enqueue.
    destruct (_pingPoller _ _); cbn; eauto.
  - intros m p data methodName args l queue Hm Hsender Hqueue Hread w'.
    subst w'. unfold on_wakeup. rewrite Hread. cbn [w_comm w_client].
    rewrite Hsender, Hqueue. cbn.
    assert (Hfree : pendingRequests m !! (_reqId (client s) + 1) = None).
    { destruct (pendingRequests m !! (_reqId (client s) + 1)) eqn:E;
        [|reflexivity].
      rewrite Hm in Hpend.
      assert (1 <= _reqId (client s) + 1 <= _reqId (client s))
        by (apply Hpend; eauto).
      lia. }
    destruct (_requestToBytes methodName args (_reqId (client s) + 1));
      cbn; auto.
  - intros m reqId Hm Hin. rewrite Hm in Hpend. now apply Hpend.
Qed.

(** C9: [_run], which starts every new generation, does not touch the
    counter; over all the generations of a client the ids given out are
    pairwise different, and every id given after a restart is above
    every id given before it. *)
Theorem request_ids_never_reset (inputs : list input) :
  let s := run inputs IOProcess_new in
  (forall c : IOProcess, _reqId (_run c) = _reqId c)
  /\ NoDup (dispatched_ids (trace s))
  /\ (forall (tr1 tr2 : list action) (i j : Z),
        trace s = tr1 ++ Spawned :: tr2 ->
        i ∈ dispatched_ids tr1 ->
        j ∈ dispatched_ids tr2 ->
        i < j).
Proof.
  intros s.
  pose proof (run_ok inputs _ IOProcess_new_ok) as Hok. fold s in Hok.
  destruct Hok as (H0 & Hids & Hpend).
  split; [reflexivity|]. split.
  - rewrite Hids. apply NoDup_seqZ.
  - intros tr1 tr2 i j Htr Hi Hj.
    rewrite Htr, dispatched_ids_app in Hids. cbn [dispatched_ids] in Hids.
    exact (seqZ_split_lt _ _ _ i j (eq_sym Hids) Hi Hj).
Qed.

End IdProperties.

(** C2, as stated, fails: after [_sendCommand] has put the command on the
    queue no id has been given (the counter is 0, the queue entry holds
    the command and the result object only); the id 1 is given by the
    turn of the loop that takes the command off the queue. *)
Lemma request_id_given_by_the_loop :
  let s1 := snd (_sendCommand_enqueue "ping" (JObj []) (Accepts 1)
                   IOProcess_new) in
  let s2 := step (RT := example_runtime) wakeup_turn s1 in
  (_reqId (client s1) = 0
   /\ _commandQueue (client s1) = [("ping"%string, JObj [], 0%nat)]
   /\ dispatched_ids (trace s1) = [])
  /\ (_reqId (client s2) = 1
      /\ _commandQueue (client s2) = []
      /\ dispatched_ids (trace s2) = [1]).
Proof. vm_compute. repeat split; reflexivity. Qed.

(** ** A closed client *)

(** [close] on a running client, when it returns, leaves the client
    closed. *)
Lemma close_closes (ping : fd_write) (c c' : IOProcess) :
  _isRunning c = true -> close ping c = (Ok tt, c') -> closed c'.
Proof.
  unfold close, closed. intros -> H. cbn [negb] in H.
  destruct (_pingPoller _ _); try discriminate.
  injection H as <-. now split.
Qed.

Section ClosedProperties.
Context {RT : Runtime}.

Lemma closed_ping (e : Z) (c : IOProcess) :
  closed c -> e <> EAGAIN -> _pingPoller (WriteFails e) c = Raise Closed.
Proof.
  unfold closed, _pingPoller. intros [-> _] He. cbn [os_write].
  apply Z.eqb_neq in He. now rewrite He.
Qed.

(** A step on a closed client leaves it closed, and nothing of what it
    does reaches a worker. *)
Lemma step_closed (i : input) (s : System) :
  closed (client s) ->
  closed (client (step i s))
  /\ exists tr : list action,
       trace (step i s) = trace s ++ tr
       /\ Forall (fun a => reaches_worker a = false) tr.
Proof.
  intros Hc. pose proof Hc as [Hrun Hfds].
  destruct i as [t|cmdName args ping|ping]; cbn [step].
  - unfold engine_turn.
    destruct (engine s) as [m| |];
      try (split; [exact Hc|exists []; now rewrite app_nil_r]).
    unfold iteration, finish.
    destruct (polled t) as [e|evs]; cbn [w_client w_trace].
    + rewrite Hrun, andb_false_r. cbn [client trace].
      split; [exact Hc|]. exists [Killed]. split; [reflexivity|].
      now repeat constructor.
    + destruct (ioproc_alive t); cbn [negb w_client].
      * rewrite Hrun. cbn [negb emit w_client w_trace]. rewrite Hrun.
        cbn [andb client trace]. split; [exact Hc|].
        exists [ShutdownRequested; Killed].
        split; [now rewrite <- app_assoc|]. now repeat constructor.
      * cbn [andb client trace]. split; [exact Hc|]. exists [Killed].
        split; [reflexivity|]. now repeat constructor.
  - unfold _sendCommand_enqueue.
    destruct (_pingPoller _ _); cbn [snd client trace];
      (split; [exact Hc|exists []; now rewrite app_nil_r]).
  - unfold close. rewrite Hrun. cbn [negb snd client trace].
    split; [exact Hc|exists []; now rewrite app_nil_r].
Qed.

Lemma run_closed (inputs : list input) :
  forall s : System,
  closed (client s) ->
  exists tr : list action,
    trace (run inputs s) = trace s ++ tr
    /\ Forall (fun a => reaches_worker a = false) tr.
Proof.
  unfold run. induction inputs as [|i inputs IH]; intros s Hc.
  - exists []. now rewrite app_nil_r.
  - cbn [fold_left].
    destruct (step_closed i s Hc) as (Hc' & tr1 & Htr1 & Hall1).
    destruct (IH _ Hc') as (tr2 & Htr2 & Hall2).
    exists (tr1 ++ tr2). rewrite Htr2, Htr1, app_assoc.
    split; [reflexivity|]. now apply Forall_app.
Qed.

(** The wait is a run of the inputs it lets through. *)
Lemma wait_run (l : loc) (during : list input) :
  forall s : System, exists inputs : list input, wait l during s = run inputs s.
Proof.
  induction during as [|i during IH]; intros s; cbn [wait].
  - now exists [].
  - destruct (is_set l s); [now exists []|].
    destruct (IH (step i s)) as [inputs H]. now exists (i :: inputs).
Qed.

(** On a client that [close] has closed, while the number of the
    wakeup descriptor is unused, the ping fails and [_sendCommand] raises
    [Closed] without waiting. Whatever the ping meets and whatever runs
    afterwards, nothing reaches a worker: no id is given to the command,
    no byte is written to a request pipe and no worker is started. *)
Lemma closed_client_reaches_no_worker (s : System) (cmdName : string)
    (args : json) (ping : fd_write) (during : list input) :
  closed (client s) ->
  (forall e : Z,
      ping = WriteFails e -> e <> EAGAIN ->
      fst (_sendCommand cmdName args ping during s) = Raise Closed)
  /\ forall inputs : list input,
     exists tr : list action,
       trace (run inputs (snd (_sendCommand cmdName args ping during s)))
       = trace s ++ tr
       /\ Forall (fun a => reaches_worker a = false) tr.
Proof.
  intros Hc. split.
  - intros e -> He. unfold _sendCommand, _sendCommand_enqueue.
    now rewrite closed_ping.
  - intros inputs.
    assert (Henq : closed (client (snd (_sendCommand_enqueue cmdName args ping s)))
                   /\ trace (snd (_sendCommand_enqueue cmdName args ping s))
                      = trace s).
    { unfold _sendCommand_enqueue. now destruct (_pingPoller _ _). }
    destruct Henq as [Hc1 Htr1].
    assert (Hsnd : exists before : list input,
               snd (_sendCommand cmdName args ping during s)
               = run before (snd (_sendCommand_enqueue cmdName args ping s))).
    { unfold _sendCommand.
      destruct (_sendCommand_enqueue cmdName args ping s) as [[l| |] s1];
        cbn [snd]; try (now exists []).
      destruct (wait_run l during s1) as [before Hw]. exists before.
      rewrite <- Hw. unfold _sendCommand_result.
      destruct (heap (wait l during s1) !! l) as [r|]; [|reflexivity].
      destruct (negb (event r)); [reflexivity|].
      destruct (result r) as [rsp|]; [|reflexivity].
      destruct (_ =? 0); [reflexivity|].
      now destruct (os_strerror _). }
    destruct Hsnd as [before ->].
    assert (Hrun : run inputs (run before (snd (_sendCommand_enqueue cmdName args ping s)))
                   = run (before ++ inputs)
                         (snd (_sendCommand_enqueue cmdName args ping s))).
    { unfold run. now rewrite fold_left_app. }
    rewrite Hrun.
    destruct (run_closed (before ++ inputs) _ Hc1) as (tr & Htr & Hall).
    exists tr. now rewrite Htr, Htr1.
Qed.

(** Once the thread is gone nothing sets an event. *)
Lemma step_exited (i : input) (s : System) (l : loc) (r : CmdResult) :
  engine s = Exited ->
  heap s !! l = Some r ->
  engine (step i s) = Exited /\ heap (step i s) !! l = Some r.
Proof.
  intros He Hl. destruct i as [t|cmdName args ping|ping]; cbn [step].
  - unfold engine_turn. rewrite He. now split.
  - unfold _sendCommand_enqueue.
    destruct (_pingPoller _ _); cbn [snd engine heap];
      (split; [exact He|]);
      (rewrite lookup_insert_ne; [exact Hl|]);
      intros Heq; pose proof (is_fresh (dom (heap s))) as Hf;
      rewrite Heq in Hf; apply Hf; apply elem_of_dom; eauto.
  - cbn [engine heap]. now split.
Qed.

Lemma wait_exited (l : loc) (during : list input) :
  forall (s : System) (r : CmdResult),
  engine s = Exited ->
  heap s !! l = Some r ->
  heap (wait l during s) !! l = Some r.
Proof.
  induction during as [|i during IH]; intros s r He Hl; cbn [wait];
    [exact Hl|].
  destruct (is_set l s); [exact Hl|].
  destruct (step_exited i s l r He Hl) as [He' Hl']. now apply IH.
Qed.

End ClosedProperties.

(** C8 fails on the code. [close] keeps the numbers of the wakeup
    descriptors after closing them, and [_sendCommand] does not look at
    [_isRunning]: the only test is the failure of the ping. Take a new
    client that [close] has returned on and whose loop has seen the
    shutdown. Once the process has given the number of [_eventFdSender]
    to a descriptor that takes the byte, the ping succeeds, the command
    is put on the queue of a client whose thread is gone, and the call
    raises [Timeout] when its wait is over, whatever runs during the
    wait. It raises [Closed], as [test_closed] expects, only while the
    number is unused. *)
Theorem closed_client_reused_descriptor_times_out (during : list input) :
  let s := run (RT := example_runtime) [Closing (Accepts 1); wakeup_turn]
               IOProcess_new in
  (closed (client s) /\ engine s = Exited)
  /\ fst (_sendCommand (RT := example_runtime) "echo" (JObj []) (Accepts 1)
            during s)
     = Raise Timeout
  /\ fst (_sendCommand (RT := example_runtime) "echo" (JObj [])
            (WriteFails EBADF) during s)
     = Raise Closed.
Proof.
  intros s. split; [repeat split|]. split.
  - pose (s1 := snd (_sendCommand_enqueue "echo" (JObj []) (Accepts 1) s)).
    assert (E : _sendCommand_enqueue "echo" (JObj []) (Accepts 1) s
                = (Ok 0%nat, s1)) by (vm_compute; reflexivity).
    assert (He : engine s1 = Exited) by reflexivity.
    assert (Hl : heap s1 !! 0%nat = Some (mkCmdResult false None))
      by (vm_compute; reflexivity).
    unfold _sendCommand. rewrite E. unfold _sendCommand_result.
    now rewrite (wait_exited (RT := example_runtime) 0%nat during s1 _ He Hl).
  - unfold _sendCommand.
    assert (E : _sendCommand_enqueue "echo" (JObj []) (WriteFails EBADF) s
                = (Raise Closed,
                   snd (_sendCommand_enqueue "echo" (JObj [])
                          (WriteFails EBADF) s)))
      by (vm_compute; reflexivity).
    now rewrite E.
Qed.

(** * More properties of the module *)

(** ** The length header *)

Lemma le_decode_bound (bs : bytes) :
  (Size.le_decode bs < 256 ^ N.of_nat (length bs))%N.
Proof.
  induction bs as [|b bs IH]; [simpl; lia|].
  cbn [Size.le_decode length]. rewrite Nat2N.inj_succ, N.pow_succ_r'.
  pose proof (Byte.to_N_bounded b). lia.
Qed.

Lemma le_encode_decode (bs : bytes) :
  Size.le_encode (length bs) (Size.le_decode bs) = bs.
Proof.
  induction bs as [|b bs IH]; [reflexivity|].
  cbn [Size.le_decode length Size.le_encode].
  pose proof (Byte.to_N_bounded b) as Hb.
  assert (Hmod : ((Byte.to_N b + 256 * Size.le_decode bs) mod 256
                  = Byte.to_N b)%N).
  { rewrite (N.mul_comm 256), N.Div0.mod_add. apply N.mod_small. lia. }
  assert (Hdiv : ((Byte.to_N b + 256 * Size.le_decode bs) / 256
                  = Size.le_decode bs)%N).
  { rewrite (N.mul_comm 256), N.div_add by lia.
    rewrite (N.div_small (Byte.to_N b) 256) by lia. lia. }
  now rewrite Hmod, Hdiv, Byte.of_to_N, IH.
Qed.

(** X1: [Size.pack] and [Size.unpack] are inverse to each other. Every
    number below 2^64 packs into 8 bytes that unpack to it; every buffer
    that unpacks is the packing of its value; a number of 2^64 or more
    does not pack and a buffer of another length than 8 does not
    unpack. *)
Theorem Size_pack_unpack_inverse :
  (forall n : N,
      (n < 2 ^ 64)%N ->
      exists header : bytes,
        Size.pack n = Some header
        /\ length header = 8%nat
        /\ Size.unpack header = Some n)
  /\ (forall (buf : bytes) (n : N),
        Size.unpack buf = Some n -> Size.pack n = Some buf)
  /\ (forall n : N, (2 ^ 64 <= n)%N -> Size.pack n = None)
  /\ (forall buf : bytes, length buf <> 8%nat -> Size.unpack buf = None).
Proof.
  repeat split.
  - intros n Hn. exists (Size.le_encode Size.size n).
    assert (Hpack : Size.pack n = Some (Size.le_encode Size.size n)).
    { unfold Size.pack. apply N.ltb_lt in Hn. now rewrite Hn. }
    split; [exact Hpack|]. split; [apply le_encode_length|].
    now apply unpack_pack.
  - intros buf n. unfold Size.unpack, Size.pack.
    destruct (Nat.eqb (length buf) Size.size) eqn:Hlen; [|discriminate].
    apply Nat.eqb_eq in Hlen. intros [= <-].
    pose proof (le_decode_bound buf) as Hb. rewrite Hlen in Hb.
    assert ((Size.le_decode buf <? 2 ^ 64)%N = true) as ->
      by (apply N.ltb_lt; exact Hb).
    f_equal. rewrite <- Hlen. apply le_encode_decode.
  - intros n Hn. unfold Size.pack.
    assert ((n <? 2 ^ 64)%N = false) as -> by (apply N.ltb_ge; exact Hn).
    reflexivity.
  - intros buf Hlen. unfold Size.unpack, Size.size.
    apply Nat.eqb_neq in Hlen. now rewrite Hlen.
Qed.

(** X1 at 300: its header has 8 bytes and unpacks to 300. *)
Lemma Size_pack_unpack_inverse_witness :
  exists header : bytes,
    Size.pack 300 = Some header
    /\ length header = 8%nat
    /\ Size.unpack header = Some 300%N.
Proof.
  apply (proj1 Size_pack_unpack_inverse 300%N). reflexivity.
Defined.

Section FramingProperties.
Context {RT : Runtime}.

(** X2: the frame [_requestToBytes] builds is an 8-byte header followed
    by the encoded request, and the header unpacks to the number of bytes
    that follow it; the call raises, with [struct.error], only for a
    request of 2^64 bytes or more. *)
Theorem _requestToBytes_frame (methodName : string) (args : json) (reqId : Z) :
  let reqStr := json_dumps reqId methodName args in
  match _requestToBytes methodName args reqId with
  | Ok frame =>
      skipn 8 frame = reqStr
      /\ Size.unpack (firstn 8 frame) = Some (N.of_nat (length reqStr))
      /\ length frame = (8 + length reqStr)%nat
  | Raise e => e = StructError /\ (2 ^ 64 <= N.of_nat (length reqStr))%N
  | Diverges => False
  end.
Proof.
  intros reqStr. unfold _requestToBytes. fold reqStr.
  destruct (Size.pack (N.of_nat (length reqStr))) as [header|] eqn:Hpack.
  - pose proof (pack_length _ _ Hpack) as Hlen. unfold Size.size in Hlen.
    apply unpack_pack in Hpack.
    assert (Hfirst : firstn 8 (header ++ reqStr) = header).
    { rewrite <- Hlen.
      now rewrite firstn_app, Nat.sub_diag, firstn_all, firstn_O, app_nil_r. }
    assert (Hskip : skipn 8 (header ++ reqStr) = reqStr).
    { rewrite <- Hlen.
      now rewrite skipn_app, Nat.sub_diag, skipn_all, skipn_O. }
    rewrite Hfirst, Hskip, length_app, Hlen. auto.
  - split; [reflexivity|]. unfold Size.pack in Hpack.
    destruct (N.of_nat (length reqStr) <? 2 ^ 64)%N eqn:E; [discriminate|].
    now apply N.ltb_ge.
Qed.

End FramingProperties.

(** ** Driving a DataSender *)

Lemma DataSender_process_keeps (w : fd_write) (s s' : DataSender)
    (r : res bool) (sent : bytes) :
  DataSender_process w s = (r, s', sent) ->
  sent ++ _dataPending s' = _dataPending s
  /\ (r = Ok true -> _dataPending s = [] /\ sent = []).
Proof.
  unfold DataSender_process.
  destruct (_dataPending s) as [|b data] eqn:Hd.
  - intros [= <- <- <-]. now rewrite Hd.
  - destruct w as [room|e]; cbn [os_write]; intros [= <- <- <-].
    + cbn [_dataPending]. split; [apply firstn_skipn|discriminate].
    + rewrite Hd. split; [reflexivity|discriminate].
Qed.

(** X3: however the descriptor answers (partial writes, zero bytes,
    errors), a [DataSender] never loses, repeats or reorders a byte:
    after any number of [process] calls the bytes written followed by
    the bytes still pending are the message; and when a call returns
    True the whole message has been written. *)
Theorem DataSender_drive_conserves (ws : list fd_write) (s : DataSender) :
  let '(values, s', sent) := DataSender_drive ws s in
  sent ++ _dataPending s' = _dataPending s
  /\ (In (Ok true) values -> sent = _dataPending s /\ _dataPending s' = []).
Proof.
  revert s. induction ws as [|w ws IH]; intros s.
  - cbn. split; [reflexivity|intros []].
  - cbn [DataSender_drive].
    destruct (DataSender_process w s) as [[r s1] sent1] eqn:E.
    apply DataSender_process_keeps in E as [Hkeep Htrue].
    destruct r as [v| |].
    + specialize (IH s1).
      destruct (DataSender_drive ws s1) as [[values s2] sent2].
      destruct IH as [IHkeep IHtrue].
      assert (Hall : (sent1 ++ sent2) ++ _dataPending s2 = _dataPending s)
        by (now rewrite <- app_assoc, IHkeep).
      split; [exact Hall|].
      intros [Hhead|Htail].
      * injection Hhead as ->. destruct (Htrue eq_refl) as [Hs ->].
        rewrite Hs in *. cbn [app] in *.
        destruct sent2; [|discriminate Hall].
        cbn [app] in Hall. now split.
      * destruct (IHtrue Htail) as [Hsent Hpend].
        rewrite Hpend, app_nil_r in Hall. now split.
    + split; [exact Hkeep|]. intros [H|[]]. discriminate.
    + split; [exact Hkeep|]. intros [H|[]]. discriminate.
Qed.

(** X3 at a message of three bytes written in two writes. *)
Lemma DataSender_drive_conserves_witness :
  let '(values, s', sent) :=
    DataSender_drive [Accepts 2; Accepts 5; Accepts 0]
                     (mkDataSender (ascii "abc")) in
  sent = ascii "abc" /\ _dataPending s' = [].
Proof.
  pose proof (DataSender_drive_conserves [Accepts 2; Accepts 5; Accepts 0]
                (mkDataSender (ascii "abc"))) as H.
  vm_compute in H. vm_compute. apply H. right. right. left. reflexivity.
Defined.

(** X4: when the descriptor accepts at least one byte at every write, a
    message of [n] bytes is written whole within [n] calls of [process],
    and the call after them returns True and leaves nothing pending. *)
Theorem DataSender_drive_completes (rooms : list nat) (data : bytes) :
  Forall (fun room => (0 < room)%nat) rooms ->
  length rooms = length data ->
  let '(values, s', sent) :=
    DataSender_drive (map Accepts rooms ++ [Accepts 0]) (mkDataSender data) in
  sent = data
  /\ _dataPending s' = []
  /\ last values = Some (Ok true).
Proof.
  intros Hpos Hlen.
  assert (Hgen : forall (rooms : list nat) (data : bytes),
             Forall (fun room => (0 < room)%nat) rooms ->
             (length data <= length rooms)%nat ->
             let '(values, s', sent) :=
               DataSender_drive (map Accepts rooms ++ [Accepts 0])
                                (mkDataSender data) in
             sent = data /\ _dataPending s' = []
             /\ last values = Some (Ok true)).
  { clear. induction rooms as [|room rooms IH]; intros data Hpos Hlen.
    - destruct data; [|simpl in Hlen; lia]. cbn. auto.
    - apply Forall_cons_iff in Hpos as [Hroom Hpos].
      cbn [map app DataSender_drive].
      destruct data as [|b data].
      + cbn [DataSender_process _dataPending].
        specialize (IH [] Hpos ltac:(simpl; lia)).
        destruct (DataSender_drive (map Accepts rooms ++ [Accepts 0])
                                   (mkDataSender [])) as [[values s2] sent2].
        destruct IH as (-> & -> & Hlast). repeat split.
        destruct values; [discriminate Hlast|exact Hlast].
      + unfold DataSender_process. cbn [_dataPending os_write].
        set (n := Nat.min room (length (b :: data))).
        assert (Hn : (0 < n)%nat) by (subst n; simpl; lia).
        specialize (IH (skipn n (b :: data)) Hpos).
        rewrite length_skipn in IH. simpl in Hlen.
        specialize (IH ltac:(simpl; lia)).
        destruct (DataSender_drive (map Accepts rooms ++ [Accepts 0])
                                   (mkDataSender (skipn n (b :: data))))
          as [[values s2] sent2].
        destruct IH as (-> & -> & Hlast). repeat split.
        * apply firstn_skipn.
        * destruct values; [discriminate Hlast|exact Hlast]. }
  apply Hgen; [exact Hpos|lia].
Qed.

Lemma DataSender_drive_completes_witness :
  let '(values, s', sent) :=
    DataSender_drive (map Accepts [2; 1; 5]%nat ++ [Accepts 0])
                     (mkDataSender (ascii "abc")) in
  sent = ascii "abc"
  /\ _dataPending s' = []
  /\ last values = Some (Ok true).
Proof.
  apply (DataSender_drive_completes [2; 1; 5]%nat (ascii "abc")).
  - repeat constructor.
  - reflexivity.
Defined.

(** ** More on ResponseReader *)

Lemma os_read_at_most (p p' : pipe) (n : nat) (bs : bytes) :
  os_read p n = (Ok bs, p') -> (length bs <= n)%nat.
Proof.
  revert p'. induction p as [|ev p IH]; intros p';
    (destruct n as [|n]; cbn [os_read]; [intros [= <- _]; simpl; lia|]).
  - discriminate.
  - destruct ev as [[|b chunk]|e|].
    + apply IH.
    + intros [= <- _]. simpl. pose proof (firstn_le_length n chunk). lia.
    + discriminate.
    + intros [= <- _]. simpl. lia.
Qed.

Lemma read_retry_at_most (fuel : nat) :
  forall (p p' : pipe) (n : nat) (bs : bytes),
  read_retry fuel p n = (Ok bs, p') -> (length bs <= n)%nat.
Proof.
  induction fuel as [|fuel IH]; intros p p' n bs; cbn [read_retry];
    [discriminate|].
  destruct (os_read p n) as [[bs0|e|] p0] eqn:E.
  - intros [= <- _]. now apply os_read_at_most in E.
  - destruct e; try discriminate.
    destruct ((errno =? EAGAIN) || (errno =? EINTR)); [apply IH|discriminate].
  - discriminate.
Qed.

Lemma read_retry_skips (errs : list Z) (b : byte) (f : bytes) (rest : pipe)
    (n fuel : nat) :
  Forall (fun e => e = EAGAIN \/ e = EINTR) errs ->
  (0 < n)%nat ->
  read_retry (S (length errs + fuel))
             (map ReadFails errs ++ Avail (b :: f) :: rest) n
  = read_retry (S fuel) (Avail (b :: f) :: rest) n.
Proof.
  intros Herrs Hn. induction Herrs as [|e errs He Herrs IH]; [reflexivity|].
  cbn [map app length Nat.add]. cbn [read_retry] in *.
  destruct n as [|n]; [lia|]. cbn [os_read].
  assert ((e =? EAGAIN) || (e =? EINTR) = true) as ->.
  { destruct He as [-> | ->]; reflexivity. }
  exact IH.
Qed.

Section MoreReaderProperties.
Context {RT : Runtime}.

(** X5: messages that follow each other in the pipe are kept apart by
    the declared length. A read that finds two whole frames takes the
    first message only and leaves the second frame in the pipe, and the
    next call decodes the second: the responses are appended in the order
    of arrival. *)
Theorem ResponseReader_consecutive_messages (rs : list Response)
    (header1 payload1 header2 payload2 : bytes) (rest : pipe)
    (resObj1 : Response) :
  payload1 <> [] ->
  payload2 <> [] ->
  Size.pack (N.of_nat (length payload1)) = Some header1 ->
  Size.pack (N.of_nat (length payload2)) = Some header2 ->
  json_loads payload1 = Some resObj1 ->
  let r := mkResponseReader rs 0%N [] in
  let p := Avail (header1 ++ payload1 ++ header2 ++ payload2) :: rest in
  ResponseReader_process r p
  = (Ok true, mkResponseReader (rs ++ [resObj1]) 0%N [],
     Avail (header2 ++ payload2) :: rest)
  /\ ResponseReader_process (mkResponseReader (rs ++ [resObj1]) 0%N [])
                           (Avail (header2 ++ payload2) :: rest)
     = (fst (completed (rs ++ [resObj1]) payload2),
        snd (completed (rs ++ [resObj1]) payload2), rest).
Proof.
  intros Hne1 Hne2 Hpack1 Hpack2 Hloads r p. subst r p.
  apply unpack_pack in Hpack1 as Hun1. apply unpack_pack in Hpack2 as Hun2.
  assert (Hn1 : N.of_nat (length payload1) <> 0%N).
  { destruct payload1; [congruence|]. simpl. lia. }
  assert (Hn2 : N.of_nat (length payload2) <> 0%N).
  { destruct payload2; [congruence|]. simpl. lia. }
  assert (Hh2 : header2 <> []).
  { apply pack_length in Hpack2. destruct header2; [discriminate|congruence]. }
  split.
  - rewrite (process_header rs header1 _ _ rest Hun1 Hn1).
    destruct payload1 as [|b1 payload1]; [congruence|].
    cbn [app]. clear Hne1.
    unfold ResponseReader_process.
    cbn [_dataRemaining _responses _dataBuffer].
    assert ((N.of_nat (length (b1 :: payload1)) =? 0)%N = false) as ->
      by (now apply N.eqb_neq).
    cbv beta iota zeta. cbn [_dataRemaining _responses _dataBuffer].
    rewrite read_retry_chunk by (simpl; lia).
    rewrite Nat2N.id.
    change (b1 :: payload1 ++ header2 ++ payload2)
      with ((b1 :: payload1) ++ header2 ++ payload2).
    rewrite firstn_app, Nat.sub_diag, firstn_all, firstn_O, app_nil_r.
    rewrite skipn_app, Nat.sub_diag, skipn_all, skipn_O. cbn [app].
    rewrite N.sub_diag. cbn [N.eqb app]. rewrite Hloads.
    destruct header2 as [|h header2]; [congruence|]. reflexivity.
  - rewrite (process_header _ header2 _ _ rest Hun2 Hn2).
    destruct payload2 as [|b2 payload2]; [congruence|].
    now rewrite process_last by (auto; lia).
Qed.

(** X6: inside a message the read is retried in place on EAGAIN and
    EINTR: any run of such failures before the bytes arrive changes
    nothing of what the call returns. Another error of the read is
    raised. The read of the header is not retried: there EAGAIN is
    raised like any error. *)
Theorem ResponseReader_retries_payload_read (r : ResponseReader)
    (errs : list Z) (b : byte) (f : bytes) (rest : pipe) :
  Forall (fun e => e = EAGAIN \/ e = EINTR) errs ->
  _dataRemaining r <> 0%N ->
  ResponseReader_process r (map ReadFails errs ++ Avail (b :: f) :: rest)
  = ResponseReader_process r (Avail (b :: f) :: rest)
  /\ (forall (e : Z) (p : pipe),
        e <> EAGAIN -> e <> EINTR ->
        ResponseReader_process r (ReadFails e :: p) = (Raise (OSErrno e), r, p))
  /\ (forall (r0 : ResponseReader) (e : Z) (p : pipe),
        _dataRemaining r0 = 0%N ->
        ResponseReader_process r0 (ReadFails e :: p)
        = (Raise (OSErrno e), r0, p)).
Proof.
  intros Herrs Hrem.
  assert (Hpos : (0 < N.to_nat (_dataRemaining r))%nat) by lia.
  assert (Heqb : (_dataRemaining r =? 0)%N = false) by (now apply N.eqb_neq).
  repeat split.
  - unfold ResponseReader_process. rewrite Heqb. cbv beta iota zeta.
    rewrite length_app, length_map. cbn [length].
    replace (S (length errs + S (length rest)))
      with (S (length errs + S (length rest)))%nat by reflexivity.
    rewrite (read_retry_skips errs b f rest _ (S (length rest)) Herrs Hpos).
    rewrite !read_retry_chunk by exact Hpos. reflexivity.
  - intros e p He1 He2. unfold ResponseReader_process. rewrite Heqb.
    cbv beta iota zeta. cbn [read_retry].
    destruct (N.to_nat (_dataRemaining r)) as [|n] eqn:En; [lia|].
    cbn [os_read].
    apply Z.eqb_neq in He1. apply Z.eqb_neq in He2. now rewrite He1, He2.
  - intros r0 e p H0. unfold ResponseReader_process. rewrite H0.
    reflexivity.
Qed.

(** X7: at a message boundary a read that returns fewer than 8 bytes, a
    short chunk or the end of file, makes [process] raise [struct.error]:
    the bytes read are gone from the pipe and the reader is as it was,
    with no response added. *)
Theorem ResponseReader_short_header (rs : list Response) (buffer : bytes)
    (b : byte) (chunk : bytes) (rest : pipe) :
  (length (b :: chunk) < 8)%nat ->
  let r := mkResponseReader rs 0%N buffer in
  ResponseReader_process r (Avail (b :: chunk) :: rest)
  = (Raise StructError, r, rest)
  /\ ResponseReader_process r (Eof :: rest) = (Raise StructError, r, Eof :: rest).
Proof.
  intros Hlen r. subst r. split.
  - apply process_short_header with (buf := b :: chunk); [reflexivity| |].
    + unfold Size.size. rewrite os_read_chunk by lia.
      rewrite firstn_all2, skipn_all2 by lia. reflexivity.
    + unfold Size.size. lia.
  - now apply process_short_header with (buf := []).
Qed.

(** X8: inside a message, a call that returns False has appended what it
    read and lowered the count by as much: the bytes buffered plus the
    bytes missing stay the declared length, the count stays positive and
    no response is added. A call that returns True leaves the count at 0
    and the buffer empty, with one response more. This holds whatever
    the pipe delivers. *)
Theorem ResponseReader_process_accounting (r r' : ResponseReader)
    (p p' : pipe) (v : bool) :
  _dataRemaining r <> 0%N ->
  ResponseReader_process r p = (Ok v, r', p') ->
  if v then
    _dataRemaining r' = 0%N /\ _dataBuffer r' = []
    /\ exists resObj : Response, _responses r' = _responses r ++ [resObj]
  else
    (N.of_nat (length (_dataBuffer r')) + _dataRemaining r'
     = N.of_nat (length (_dataBuffer r)) + _dataRemaining r)%N
    /\ _dataRemaining r' <> 0%N
    /\ _responses r' = _responses r
    /\ exists buff : bytes, _dataBuffer r' = _dataBuffer r ++ buff.
Proof.
  intros Hrem. unfold ResponseReader_process.
  assert ((_dataRemaining r =? 0)%N = false) as -> by (now apply N.eqb_neq).
  cbv beta iota zeta.
  destruct (read_retry _ p _) as [[buff|e|] p2] eqn:E; try discriminate.
  apply read_retry_at_most in E.
  destruct (_dataRemaining r - N.of_nat (length buff) =? 0)%N eqn:Hz.
  - destruct (json_loads _) as [resObj|]; [|discriminate].
    intros [= <- <- <-]. cbn. apply N.eqb_eq in Hz. eauto.
  - intros [= <- <- <-]. cbn. apply N.eqb_neq in Hz.
    rewrite length_app. repeat split; eauto; lia.
Qed.

End MoreReaderProperties.

Lemma ResponseReader_consecutive_messages_witness :
  let header := default [] (Size.pack 9) in
  ResponseReader_process (RT := example_runtime) ResponseReader_init
    [Avail (header ++ json_id "1" ++ header ++ json_id "2")]
  = (Ok true,
     mkResponseReader [mkResponse (Some 1) None None None] 0%N [],
     [Avail (header ++ json_id "2")]).
Proof.
  intros header.
  apply (ResponseReader_consecutive_messages (RT := example_runtime) []
           header (json_id "1") header (json_id "2") []
           (mkResponse (Some 1) None None None));
    solve [discriminate | reflexivity].
Defined.

Lemma ResponseReader_retries_payload_read_witness :
  let r := mkResponseReader [] 2%N [] in
  ResponseReader_process (RT := example_runtime) r
    (map ReadFails [EAGAIN; EINTR; EAGAIN] ++ [Avail ["001"%byte]])
  = ResponseReader_process (RT := example_runtime) r [Avail ["001"%byte]].
Proof.
  intros r.
  apply (ResponseReader_retries_payload_read (RT := example_runtime) r
           [EAGAIN; EINTR; EAGAIN] "001"%byte [] []).
  - repeat (apply List.Forall_cons;
            [first [left; reflexivity|right; reflexivity]|]).
    apply List.Forall_nil.
  - discriminate.
Defined.

Lemma ResponseReader_short_header_witness :
  ResponseReader_process (RT := example_runtime) ResponseReader_init
    [Avail ["003"; "000"; "000"]%byte]
  = (Raise StructError, ResponseReader_init, []).
Proof.
  apply (ResponseReader_short_header (RT := example_runtime) [] []
           "003"%byte ["000"; "000"]%byte []).
  simpl. lia.
Defined.

Lemma ResponseReader_process_accounting_witness :
  let r := mkResponseReader [] 3%N ["001"%byte] in
  let r' := mkResponseReader [] 1%N ["001"; "002"; "003"]%byte in
  (N.of_nat (length (_dataBuffer r')) + _dataRemaining r'
   = N.of_nat (length (_dataBuffer r)) + _dataRemaining r)%N
  /\ _dataRemaining r' <> 0%N
  /\ _responses r' = _responses r
  /\ exists buff : bytes, _dataBuffer r' = _dataBuffer r ++ buff.
Proof.
  intros r r'.
  apply (ResponseReader_process_accounting (RT := example_runtime) r r'
           [Avail ["002"; "003"]%byte] [] false).
  - discriminate.
  - reflexivity.
Defined.

(** ** More on the log lines *)

Lemma str_partition_at_first (sep : N) (before after : pystr) :
  ~ In sep before ->
  str_partition sep (before ++ sep :: after) = Some (before, after).
Proof.
  induction before as [|c before IH]; intros Hnot; cbn [app str_partition].
  - now rewrite N.eqb_refl.
  - assert ((c =? sep)%N = false) as ->.
    { apply N.eqb_neq. intros ->. apply Hnot. now left. }
    rewrite IH; [reflexivity|]. intros H. apply Hnot. now right.
Qed.

Lemma str_partition_count (sep : N) (s : pystr) :
  match str_partition sep s with
  | Some (_, after) => count_char sep s = S (count_char sep after)
  | None => count_char sep s = 0%nat
  end.
Proof.
  unfold count_char. induction s as [|c s IH]; cbn [str_partition]; [reflexivity|].
  cbn [List.filter]. destruct (c =? sep)%N; [reflexivity|].
  destruct (str_partition sep s) as [[before after]|]; exact IH.
Qed.

Lemma str_split_length (sep : N) (maxsplit : nat) :
  forall s : pystr,
  length (str_split sep maxsplit s)
  = S (Nat.min maxsplit (count_char sep s)).
Proof.
  induction maxsplit as [|k IH]; intros s; [reflexivity|].
  cbn [str_split]. pose proof (str_partition_count sep s) as Hc.
  destruct (str_partition sep s) as [[before after]|].
  - cbn [length]. rewrite IH, Hc. reflexivity.
  - rewrite Hc. reflexivity.
Qed.

Section MoreLogProperties.
Context {RT : Runtime}.

(** X9: a line whose text, once decoded and stripped, is
    [LEVEL|domain|message] with LEVEL one of ERROR, WARNING, DEBUG, INFO
    makes exactly one call, on the sink of that level, with the message:
    everything after the second bar, further bars included. *)
Theorem log_line_routes_known_level (line : bytes) (name : string)
    (lvl : level) (logDomain message : pystr) :
  In (name, lvl)
     [("ERROR", ERROR); ("WARNING", WARNING); ("DEBUG", DEBUG);
      ("INFO", INFO)]%string ->
  ~ In BAR logDomain ->
  strip (decode_replace line)
  = pystr_of_string name ++ BAR :: logDomain ++ BAR :: message ->
  log_line line = [Sublog lvl message].
Proof.
  intros Hname Hdom Htext. unfold log_line. rewrite Htext.
  assert (Hsplit : str_split BAR 2
                     (pystr_of_string name ++ BAR :: logDomain ++ BAR :: message)
                   = [pystr_of_string name; logDomain; message]).
  { cbn [str_split].
    rewrite str_partition_at_first.
    - now rewrite str_partition_at_first.
    - destruct Hname as [H|[H|[H|[H|[]]]]]; injection H as <- _;
        vm_compute; intuition discriminate. }
  rewrite Hsplit.
  destruct Hname as [H|[H|[H|[H|[]]]]]; injection H as <- <-; reflexivity.
Qed.

(** X10: the invalid-message warning is written exactly for the lines
    whose decoded and stripped text has fewer than two bars, once, with
    the decoded line; a line with two bars or more never gets it. *)
Theorem log_line_invalid_iff (line : bytes) :
  log_line line = [InvalidLogMessage (decode_replace line)]
  <-> (count_char BAR (strip (decode_replace line)) < 2)%nat.
Proof.
  unfold log_line.
  pose proof (str_split_length BAR 2 (strip (decode_replace line))) as Hlen.
  destruct (str_split BAR 2 (strip (decode_replace line)))
    as [|a [|b [|c [|d rest]]]]; cbn [length] in Hlen.
  - lia.
  - split; [lia|reflexivity].
  - split; [lia|reflexivity].
  - split; [|lia].
    repeat case_bool_decide; discriminate.
  - lia.
Qed.

(** X11: on a stream without carriage returns the logger calls and the
    bytes left over do not depend on where the reads cut the stream: two
    ways of cutting the same bytes give the same result. *)
Theorem log_calls_independent_of_cuts (chunks1 chunks2 : list bytes) :
  concat chunks1 = concat chunks2 ->
  Forall (Forall (fun b => Byte.eqb b CR = false)) chunks1 ->
  feed_logs chunks1 [] = feed_logs chunks2 [].
Proof.
  intros Hsame Hcr1.
  assert (Hcr2 : Forall (Forall (fun b => Byte.eqb b CR = false)) chunks2).
  { assert (Hall : Forall (fun b => Byte.eqb b CR = false) (concat chunks2)).
    { rewrite <- Hsame. clear - Hcr1.
      induction Hcr1; cbn [concat]; [constructor|]. now apply Forall_app. }
    clear - Hall. induction chunks2 as [|c chunks2 IH]; [constructor|].
    cbn [concat] in Hall. apply Forall_app in Hall as [Hc Hrest].
    constructor; auto. }
  rewrite (feed_logs_reassembly chunks1 Hcr1 [] ltac:(constructor)).
  rewrite (feed_logs_reassembly chunks2 Hcr2 [] ltac:(constructor)).
  now rewrite Hsame.
Qed.

End MoreLogProperties.

Lemma log_line_routes_known_level_witness :
  log_line (RT := example_runtime) (ascii "  WARNING|io|a|b" ++ [LF])
  = [Sublog WARNING (pystr_of_string "a|b")].
Proof.
  apply (log_line_routes_known_level (RT := example_runtime)
           (ascii "  WARNING|io|a|b" ++ [LF]) "WARNING" WARNING
           (pystr_of_string "io") (pystr_of_string "a|b")).
  - right. left. reflexivity.
  - vm_compute. intuition discriminate.
  - reflexivity.
Defined.

Lemma log_calls_independent_of_cuts_witness :
  feed_logs (RT := example_runtime)
            [ascii "INFO|d|x" ++ [LF] ++ ascii "DEB"; ascii "UG|d|y" ++ [LF]] []
  = feed_logs (RT := example_runtime)
              [ascii "INFO|d"; ascii "|x" ++ [LF] ++ ascii "DEBUG|d|y" ++ [LF]] [].
Proof.
  apply (log_calls_independent_of_cuts (RT := example_runtime)
           [ascii "INFO|d|x" ++ [LF] ++ ascii "DEB"; ascii "UG|d|y" ++ [LF]]
           [ascii "INFO|d"; ascii "|x" ++ [LF] ++ ascii "DEBUG|d|y" ++ [LF]]).
  - reflexivity.
  - repeat constructor.
Defined.

(** ** More on the loop *)

Section MoreLoopProperties.
Context {RT : Runtime}.

Lemma pop_appended (rs : list Response) (rsp : Response) (n : N)
    (buffer : bytes) :
  ResponseReader_pop (mkResponseReader (rs ++ [rsp]) n buffer)
  = Some (rsp, mkResponseReader rs n buffer).
Proof.
  unfold ResponseReader_pop. cbn [_responses _dataRemaining _dataBuffer].
  rewrite rev_app_distr. cbn [rev app]. now rewrite rev_involutive.
Qed.

(** One read that finds a whole frame at a message boundary. *)
Lemma process_whole_frame (rs : list Response) (header payload : bytes)
    (rest : pipe) :
  payload <> [] ->
  Size.pack (N.of_nat (length payload)) = Some header ->
  ResponseReader_process (mkResponseReader rs 0%N [])
                         (Avail (header ++ payload) :: rest)
  = (fst (completed rs payload), snd (completed rs payload), rest).
Proof.
  intros Hne Hpack. apply unpack_pack in Hpack.
  assert (Hn : N.of_nat (length payload) <> 0%N).
  { destruct payload; [congruence|]. simpl. lia. }
  rewrite (process_header rs header payload _ rest Hpack Hn).
  destruct payload as [|b payload]; [congruence|].
  now rewrite process_last by (auto; lia).
Qed.

(** X12: a whole framed response read at a message boundary goes to the
    caller whose request has its id and to nobody else. When the id is in
    the table, the response is stored in the object of that entry, its
    event is set, the entry is removed and every other object and entry
    is left as it was. When the id is not in the table, the response is
    dropped with one warning and nothing else changes. *)
Theorem response_goes_to_its_caller (s : System) (m : Comm)
    (rs : list Response) (header payload : bytes) (rest : pipe)
    (rsp : Response) (reqId : Z) :
  engine s = Running m ->
  _isRunning (client s) = true ->
  responseReader m = mkResponseReader rs 0%N [] ->
  payload <> [] ->
  Size.pack (N.of_nat (length payload)) = Some header ->
  json_loads payload = Some rsp ->
  r_id rsp = Some reqId ->
  let s' :=
    engine_turn
      (mkTick true (PollReturns [ResponseReady (Avail (header ++ payload) :: rest)]))
      s in
  client s' = client s
  /\ match pendingRequests m !! reqId with
     | Some l =>
         heap s' = <[l := mkCmdResult true (Some rsp)]> (heap s)
         /\ engine s'
            = Running (mkComm (dataSender m) (delete reqId (pendingRequests m))
                              (responseReader m))
         /\ trace s' = trace s
     | None =>
         heap s' = heap s
         /\ engine s' = Running m
         /\ trace s' = trace s ++ [UnknownRequestId reqId]
     end.
Proof.
  intros Hm Hrun Hreader Hne Hpack Hloads Hid s'. subst s'.
  assert (Hproc : ResponseReader_process (responseReader m)
                    (Avail (header ++ payload) :: rest)
                  = (Ok true, mkResponseReader (rs ++ [rsp]) 0%N [], rest)).
  { rewrite Hreader, (process_whole_frame rs header payload rest Hne Hpack).
    unfold completed. now rewrite Hloads. }
  unfold engine_turn, iteration. rewrite Hm.
  cbn [polled ioproc_alive negb w_client]. rewrite Hrun.
  cbn [negb for_events handle_event]. unfold on_response.
  cbn [w_comm]. rewrite Hproc, pop_appended, Hid.
  destruct (pendingRequests m !! reqId) as [l|]; cbn; rewrite <- ?Hreader;
    repeat split; try reflexivity.
  destruct m; reflexivity.
Qed.

(** X13: when the client is not running, the next turn of the loop ends
    the generation whatever [poll] reports: the worker is killed, no new
    one is started, and the store is left as it is: the requests of the
    table are not answered, not even with the crash result. *)
Theorem shutdown_turn (s : System) (m : Comm) (t : tick) :
  engine s = Running m ->
  _isRunning (client s) = false ->
  let s' := engine_turn t s in
  engine s' = Exited
  /\ heap s' = heap s
  /\ client s' = client s
  /\ count_killed (trace s') = S (count_killed (trace s))
  /\ count_spawned (trace s') = count_spawned (trace s).
Proof.
  intros Hm Hrun s'. subst s'. unfold engine_turn, iteration, finish.
  rewrite Hm. unfold count_killed, count_spawned.
  destruct (polled t) as [e|evs]; cbn [w_client w_heap w_trace].
  - rewrite Hrun, andb_false_r. cbn.
    rewrite !List.filter_app, !length_app. cbn. repeat split; lia.
  - destruct (ioproc_alive t); cbn [negb w_client]; rewrite ?Hrun; cbn;
      rewrite ?Hrun; cbn; rewrite ?List.filter_app, ?length_app; cbn;
      repeat split; lia.
Qed.

End MoreLoopProperties.

(** X12 at the response to the one request a client has sent. *)
Lemma response_goes_to_its_caller_witness :
  let s := run (RT := example_runtime)
               [Caller "echo" (JObj []) (Accepts 1); wakeup_turn] IOProcess_new in
  let s' := step (RT := example_runtime) (response_turn (json_id "1")) s in
  heap s' !! 0%nat
  = Some (mkCmdResult true (Some (mkResponse (Some 1) None None None)))
  /\ engine s'
     = Running (mkComm (Some (mkDataSender (framed (ascii "echo")))) ∅
                       ResponseReader_init).
Proof.
  intros s s'.
  pose proof (response_goes_to_its_caller (RT := example_runtime) s
                (mkComm (Some (mkDataSender (framed (ascii "echo"))))
                        {[1 := 0%nat]} ResponseReader_init)
                [] (default [] (Size.pack 9)) (json_id "1") []
                (mkResponse (Some 1) None None None) 1) as H.
  cbv zeta in H. destruct H as [_ H]; try (vm_compute; reflexivity).
  - discriminate.
  - change (heap s' = <[0%nat := mkCmdResult true
                                   (Some (mkResponse (Some 1) None None None))]>
                        (heap s)
            /\ engine s'
               = Running (mkComm (Some (mkDataSender (framed (ascii "echo"))))
                                 (delete 1 {[1 := 0%nat]}) ResponseReader_init)
            /\ trace s' = trace s) in H.
    destruct H as (Hh & He & _). split.
    + rewrite Hh. apply lookup_insert_eq.
    + rewrite He. now rewrite delete_singleton_eq.
Defined.

(** X13 at a client that was closed before the loop took its next
    turn. *)
Lemma shutdown_turn_witness :
  let s := run (RT := example_runtime) [Closing (Accepts 1)] IOProcess_new in
  let s' := engine_turn (RT := example_runtime)
              (mkTick true (PollReturns [WakeupReady [Avail ["0"%byte]]])) s in
  engine s' = Exited /\ heap s' = heap s.
Proof.
  intros s s'.
  destruct (shutdown_turn (RT := example_runtime) s Comm_init
              (mkTick true (PollReturns [WakeupReady [Avail ["0"%byte]]])))
    as (He & Hh & _).
  - reflexivity.
  - reflexivity.
  - split; [exact He|exact Hh].
Defined.

(** ** What the loop keeps over a whole run *)

Lemma dispatched_objs_app (tr1 tr2 : list action) :
  dispatched_objs (tr1 ++ tr2) = dispatched_objs tr1 ++ dispatched_objs tr2.
Proof.
  induction tr1 as [|a tr1 IH]; [reflexivity|].
  destruct a; cbn [app dispatched_objs]; now rewrite ?IH.
Qed.

Section RunProperties.
Context {RT : Runtime}.

Lemma log_line_loop_actions (line : bytes) :
  Forall (fun a => loop_action a = true) (log_line line)
  /\ dispatched_objs (log_line line) = [].
Proof.
  unfold log_line.
  destruct (str_split BAR 2 (strip (decode_replace line)))
    as [|? [|? [|? [|? ?]]]]; try (split; [repeat constructor|reflexivity]).
  repeat case_bool_decide; split; repeat constructor.
Qed.

Lemma process_lines_loop_actions (lines : list bytes) (partial : bytes) :
  Forall (fun a => loop_action a = true) (fst (process_lines lines partial))
  /\ dispatched_objs (fst (process_lines lines partial)) = [].
Proof.
  induction lines as [|line lines [IH1 IH2]]; [split; [constructor|reflexivity]|].
  cbn [process_lines].
  destruct (negb (endswith_LF line)); [split; [constructor|reflexivity]|].
  destruct (process_lines lines partial) as [acts p]. cbn [fst] in *.
  destruct (log_line_loop_actions line) as [L1 L2].
  split; [now apply Forall_app|].
  now rewrite dispatched_objs_app, L2, IH2.
Qed.

Lemma _processLogs_loop_actions (data partial partial' : bytes)
    (acts : list action) :
  _processLogs data partial = (acts, partial') ->
  Forall (fun a => loop_action a = true) acts /\ dispatched_objs acts = [].
Proof.
  rewrite _processLogs_concat. intros H.
  pose proof (process_lines_loop_actions (splitlines (partial ++ data)) [])
    as Hn.
  now rewrite H in Hn.
Qed.

(** The body of the loop only adds to the trace, and only actions of
    its own; what it adds to the objects dispatched is what it takes off
    the queue. *)
Lemma handle_event_trace (ev : ready) (w w' : World) (f : flow) :
  handle_event ev w = (f, w') ->
  (exists acts : list action,
      w_trace w' = w_trace w ++ acts
      /\ Forall (fun a => loop_action a = true) acts)
  /\ dispatched_objs (w_trace w') ++ queued_objs (w_client w')
     = dispatched_objs (w_trace w) ++ queued_objs (w_client w).
Proof.
  intros E. unfold queued_objs. handler_cases ev E; cbn.
  all: try match goal with
           | H : _processLogs _ _ = _ |- _ =>
               apply _processLogs_loop_actions in H as [? Hobjs]
           end.
  all: rewrite ?dispatched_objs_app; cbn [dispatched_objs].
  all: try match goal with
           | H : dispatched_objs ?l = [] |- _ => rewrite H
           end.
  all: rewrite ?app_nil_r.
  all: try match goal with
           | H : _commandQueue _ = _ |- _ => rewrite ?H
           end.
  all: cbn [map snd]; rewrite <- ?app_assoc; cbn [app]; rewrite ?app_nil_r.
  all: split; [|reflexivity].
  all: try (exists []; rewrite app_nil_r; split; [reflexivity|constructor]).
  all: eexists; split; [reflexivity|]; repeat constructor; assumption.
Qed.

Lemma for_events_trace (evs : list ready) :
  forall (w w' : World) (f : flow),
  for_events evs w = (f, w') ->
  (exists acts : list action,
      w_trace w' = w_trace w ++ acts
      /\ Forall (fun a => loop_action a = true) acts)
  /\ dispatched_objs (w_trace w') ++ queued_objs (w_client w')
     = dispatched_objs (w_trace w) ++ queued_objs (w_client w).
Proof.
  induction evs as [|ev evs IH]; intros w w' f H.
  - cbn in H. injection H as <- <-. split; [|reflexivity].
    exists []. rewrite app_nil_r. split; [reflexivity|constructor].
  - cbn [for_events] in H.
    destruct (handle_event ev w) as [f1 w1] eqn:E.
    apply handle_event_trace in E as [(acts1 & Ht1 & Hl1) Hq1].
    assert (Hcases : (f1 = Continue /\ for_events evs w1 = (f, w'))
                     \/ (f1, w1) = (f, w')).
    { destruct f1; auto. }
    destruct Hcases as [[_ Hrest]|Hstop].
    + apply IH in Hrest as [(acts2 & Ht2 & Hl2) Hq2].
      split; [|congruence].
      exists (acts1 ++ acts2). rewrite Ht2, Ht1, app_assoc.
      split; [reflexivity|now apply Forall_app].
    + injection Hstop as <- <-. split; [eauto|exact Hq1].
Qed.

Lemma finish_trace (how : ending) (w : World) :
  dispatched_objs (trace (finish how w)) ++ queued_objs (client (finish how w))
  = dispatched_objs (w_trace w) ++ queued_objs (w_client w).
Proof.
  unfold finish, queued_objs.
  destruct how as [a|e [|] a]; cbn [w_client w_trace];
    destruct (a && _); cbn [trace client engine _run set_partialLogs _commandQueue];
    rewrite ?dispatched_objs_app; cbn; now rewrite ?app_nil_r.
Qed.

Lemma engine_turn_trace (t : tick) (s : System) :
  dispatched_objs (trace (engine_turn t s))
    ++ queued_objs (client (engine_turn t s))
  = dispatched_objs (trace s) ++ queued_objs (client s).
Proof.
  unfold engine_turn.
  destruct (engine s) as [m| |] eqn:Hm; try reflexivity.
  unfold iteration.
  destruct (polled t) as [e|evs]; [apply finish_trace|].
  destruct (negb (ioproc_alive t)); [apply finish_trace|].
  destruct (negb (_isRunning _)).
  { rewrite finish_trace. cbn [emit w_trace w_client].
    rewrite dispatched_objs_app. cbn. now rewrite app_nil_r. }
  destruct (for_events evs _) as [f w'] eqn:E.
  apply for_events_trace in E as [_ Hq]. cbn [w_trace w_client] in Hq.
  destruct f; rewrite ?finish_trace; exact Hq.
Qed.

(** X14: commands leave the queue in the order they were put on it, none
    is lost and none is dispatched twice: over any run, the objects
    dispatched so far followed by the objects still queued are the
    objects dispatched and queued at the start followed by the objects of
    the calls made since, in the order of the calls. Crashes and restarts
    keep the queue. *)
Theorem commands_dispatched_in_order (inputs : list input) :
  forall s : System,
  dispatched_objs (trace (run inputs s)) ++ queued_objs (client (run inputs s))
  = dispatched_objs (trace s) ++ queued_objs (client s) ++ submitted inputs s.
Proof.
  unfold run. induction inputs as [|i inputs IH]; intros s.
  - cbn. now rewrite app_nil_r.
  - cbn [fold_left submitted]. rewrite IH, app_assoc.
    destruct i as [t|cmdName args ping|ping]; cbn [step app].
    + rewrite (engine_turn_trace t s). now rewrite <- app_assoc.
    + unfold _sendCommand_enqueue, queued_objs.
      destruct (_pingPoller _ _); cbn [snd trace client];
        cbn [set_commandQueue _commandQueue];
        rewrite map_app; cbn [map snd]; now rewrite <- !app_assoc.
    + unfold close, queued_objs.
      destruct (negb (_isRunning (client s))); cbn [snd trace client];
        [now rewrite <- app_assoc|].
      destruct (_pingPoller _ _); cbn [snd trace client _commandQueue];
        now rewrite <- app_assoc.
Qed.

Lemma handle_event_recorded (ev : ready) (w w' : World) (f : flow) :
  table_recorded (pendingRequests (w_comm w)) (w_trace w) ->
  handle_event ev w = (f, w') ->
  table_recorded (pendingRequests (w_comm w')) (w_trace w').
Proof.
  unfold table_recorded. intros Hrec E.
  handler_cases ev E; cbn; intros rq_ ob_ Hlook_;
    try (apply lookup_delete_Some in Hlook_ as [_ Hlook_]);
    try (apply lookup_insert_Some in Hlook_ as [[<- <-]|[_ Hlook_]]);
    rewrite ?in_app_iff; cbn; auto.
Qed.

Lemma for_events_recorded (evs : list ready) :
  forall (w w' : World) (f : flow),
  table_recorded (pendingRequests (w_comm w)) (w_trace w) ->
  for_events evs w = (f, w') ->
  table_recorded (pendingRequests (w_comm w')) (w_trace w').
Proof.
  induction evs as [|ev evs IH]; intros w w' f Hrec H.
  - cbn in H. now injection H as <- <-.
  - cbn [for_events] in H.
    destruct (handle_event ev w) as [f1 w1] eqn:E.
    apply (handle_event_recorded _ _ _ _ Hrec) in E.
    destruct f1; try (injection H as <- <-; exact E).
    now apply (IH w1 w' f).
Qed.

Lemma run_recorded (inputs : list input) :
  forall s : System,
  (forall m, engine s = Running m ->
             table_recorded (pendingRequests m) (trace s)) ->
  forall m, engine (run inputs s) = Running m ->
            table_recorded (pendingRequests m) (trace (run inputs s)).
Proof.
  unfold run. induction inputs as [|i inputs IH]; intros s Hs; [exact Hs|].
  cbn [fold_left]. apply IH. clear IH. intros m' Hm'.
  destruct i as [t|cmdName args ping|ping]; cbn [step] in *.
  - unfold engine_turn in *.
    destruct (engine s) as [m| |] eqn:Hm; try (rewrite Hm in Hm'; discriminate).
    specialize (Hs m eq_refl).
    assert (Hempty : forall how w, engine (finish how w) = Running m' ->
                     table_recorded (pendingRequests m') (trace (finish how w))).
    { intros how w. unfold finish.
      destruct (_ && _); cbn [engine]; [|discriminate].
      intros [= <-]. intros reqId l H. unfold Comm_init in H.
      cbn [pendingRequests] in H. now rewrite lookup_empty in H. }
    unfold iteration in *.
    destruct (polled t) as [e|evs]; [now apply Hempty|].
    destruct (negb (ioproc_alive t)); [now apply Hempty|].
    destruct (negb (_isRunning _)); [now apply Hempty|].
    destruct (for_events evs _) as [f w'] eqn:E.
    apply (for_events_recorded evs (mkWorld (client s) m (heap s) (trace s))
             w' f Hs) in E.
    destruct f; try (now apply Hempty).
    + cbn [engine trace] in *. now injection Hm' as <-.
    + discriminate.
  - unfold _sendCommand_enqueue in *.
    destruct (_pingPoller _ _); cbn [snd engine trace] in *; now apply Hs.
  - cbn [engine trace] in *. now apply Hs.
Qed.

Lemma dispatched_id_in (tr : list action) (reqId : Z) (l : loc) :
  In (Dispatched reqId l) tr -> In reqId (dispatched_ids tr).
Proof.
  induction tr as [|a tr IH]; [intros []|].
  intros [->|Hin]; [now left|].
  destruct a; cbn [dispatched_ids]; auto. right. auto.
Qed.

Lemma dispatched_once (tr : list action) (reqId : Z) (l l' : loc) :
  List.NoDup (dispatched_ids tr) ->
  In (Dispatched reqId l) tr -> In (Dispatched reqId l') tr -> l = l'.
Proof.
  induction tr as [|a tr IH]; [intros _ []|].
  intros Hnd H1 H2.
  assert (Hskip : forall a0, a = a0 -> dispatched_ids (a0 :: tr) = dispatched_ids tr ->
                  l = l').
  { intros a0 -> Heq. rewrite Heq in Hnd.
    destruct H1 as [H1|H1], H2 as [H2|H2]; try congruence;
      first [ rewrite H1 in Heq | rewrite H2 in Heq | idtac ];
      try (cbn in Heq; exfalso; revert Heq; clear;
           generalize (dispatched_ids tr); intros ids H;
           apply (f_equal (@length Z)) in H; simpl in H; lia).
    now apply IH. }
  destruct a; try (now apply (Hskip _ eq_refl)).
  cbn [dispatched_ids] in Hnd. apply List.NoDup_cons_iff in Hnd as [Hnot Hnd].
  destruct H1 as [H1|H1], H2 as [H2|H2].
  - congruence.
  - injection H1 as -> ->. apply dispatched_id_in in H2. contradiction.
  - injection H2 as -> ->. apply dispatched_id_in in H1. contradiction.
  - now apply IH.
Qed.

(** X16: over the whole life of a client, an entry of the table always
    holds the object its id was dispatched with, and no other object was
    ever dispatched under that id: a response matched by id cannot reach
    the caller of another request. *)
Theorem table_entry_is_the_dispatched_object (inputs : list input) (m : Comm)
    (reqId : Z) (l : loc) :
  let s := run inputs IOProcess_new in
  engine s = Running m ->
  pendingRequests m !! reqId = Some l ->
  In (Dispatched reqId l) (trace s)
  /\ forall l' : loc, In (Dispatched reqId l') (trace s) -> l' = l.
Proof.
  intros s Hm Hl.
  assert (Hrec : table_recorded (pendingRequests m) (trace s)).
  { apply (run_recorded inputs IOProcess_new); [|exact Hm].
    intros m0 [= <-] reqId0 l0 H. unfold Comm_init in H.
    cbn [pendingRequests] in H. now rewrite lookup_empty in H. }
  pose proof (Hrec reqId l Hl) as Hin. split; [exact Hin|].
  intros l' Hin'.
  pose proof (run_ok inputs _ IOProcess_new_ok) as (_ & Hids & _).
  fold s in Hids.
  apply (dispatched_once (trace s) reqId l' l); auto.
  rewrite Hids. apply NoDup_ListNoDup, NoDup_seqZ.
Qed.

End RunProperties.

Lemma table_entry_is_the_dispatched_object_witness :
  let s := run (RT := example_runtime)
               [Caller "echo" (JObj []) (Accepts 1); wakeup_turn] IOProcess_new in
  In (Dispatched 1 0%nat) (trace s)
  /\ forall l' : loc, In (Dispatched 1 l') (trace s) -> l' = 0%nat.
Proof.
  apply (table_entry_is_the_dispatched_object (RT := example_runtime)
           [Caller "echo" (JObj []) (Accepts 1); wakeup_turn]
           (mkComm (Some (mkDataSender (framed (ascii "echo"))))
                   {[1 := 0%nat]} ResponseReader_init) 1 0%nat).
  - vm_compute. reflexivity.
  - reflexivity.
Defined.

(** ** close, crash, access, dict2namedtuple *)

(** X17: [close] is idempotent: after a first call, whether it returned
    or raised, the client is marked not running and every further call
    returns at once and changes nothing; no call touches the queue or
    the counter. *)
Theorem close_idempotent (ping1 ping2 : fd_write) (c : IOProcess) :
  let c1 := snd (close ping1 c) in
  _isRunning c1 = false
  /\ close ping2 c1 = (Ok tt, c1)
  /\ _commandQueue c1 = _commandQueue c
  /\ _reqId c1 = _reqId c.
Proof.
  unfold close. destruct (_isRunning c) eqn:Hrun; cbn [negb snd].
  - destruct (_pingPoller ping1 _); cbn [snd _isRunning negb]; auto.
  - rewrite Hrun. auto.
Qed.

(** X21: [dict2namedtuple] returns the values of the fields of the tuple
    type, in the order of the fields, and raises [KeyError] exactly when
    a field is not a key of the dict; keys that are not fields are
    ignored. *)
Theorem dict2namedtuple_spec (d : gmap string json) (fields : list string) :
  match dict2namedtuple d fields with
  | Ok vs => Forall2 (fun field v => d !! field = Some v) fields vs
  | Raise e => e = KeyError /\ exists field, In field fields /\ d !! field = None
  | Diverges => False
  end
  /\ forall (d' : gmap string json) (vs : list json),
       d ⊆ d' ->
       dict2namedtuple d fields = Ok vs ->
       dict2namedtuple d' fields = Ok vs.
Proof.
  split.
  - induction fields as [|field fields IH]; cbn [dict2namedtuple];
      [constructor|].
    destruct (d !! field) as [v|] eqn:Hf.
    + destruct (dict2namedtuple d fields) as [vs|e|]; [| |exact IH].
      * now constructor.
      * destruct IH as (-> & f & Hin & Hnone). split; [reflexivity|].
        exists f. split; [now right|exact Hnone].
    + split; [reflexivity|]. exists field. split; [now left|exact Hf].
  - intros d' vs Hsub. revert vs.
    induction fields as [|field fields IH]; intros vs; cbn [dict2namedtuple];
      [auto|].
    destruct (d !! field) as [v|] eqn:Hf; [|discriminate].
    rewrite (lookup_weaken d d' field v Hf Hsub).
    destruct (dict2namedtuple d fields) as [vs0|e|]; try discriminate.
    intros [= <-]. now rewrite (IH vs0 eq_refl).
Qed.

Section MoreCallerProperties.
Context {RT : Runtime}.

(** X20: [access] never lets an [OSError] out. When the response carries
    a non-zero errcode in the range of a C [int], the crash code of the
    engine included, [access] returns False; for a code outside that
    range the OverflowError of [os.strerror] gets out, with or without
    an errstr in the response. No call of [access] raises an [OSError],
    whatever the response and whatever the system calls meet. *)
Theorem access_turns_errors_into_False (path : string) (mode : Z)
    (ping : fd_write) (during : list input) (s s1 : System) (l : loc)
    (rsp : Response) (errcode : Z) :
  _sendCommand_enqueue "access"
    (JObj [("path"%string, JStr path); ("mode"%string, JNum mode)]) ping s
  = (Ok l, s1) ->
  heap (wait l during s1) !! l = Some (mkCmdResult true (Some rsp)) ->
  r_errcode rsp = Some errcode ->
  errcode <> 0 ->
  fst (access path mode ping during s)
  = (if (- 2 ^ 31 <=? errcode) && (errcode <? 2 ^ 31) then Ok (JBool false)
     else Raise OverflowError)
  /\ forall (path' : string) (mode' : Z) (ping' : fd_write)
            (during' : list input) (s' : System) (e : Z) (msg : string),
       fst (access path' mode' ping' during' s') <> Raise (OSError e msg)
       /\ fst (access path' mode' ping' during' s') <> Raise (OSErrno e).
Proof.
  intros Henq Hres Hcode Hnz. split.
  - unfold access, _sendCommand, _sendCommand_result.
    rewrite Henq, Hres. cbn [event result negb]. rewrite Hcode.
    cbn [from_option id]. apply Z.eqb_neq in Hnz. rewrite Hnz.
    unfold os_strerror.
    now destruct ((- 2 ^ 31 <=? errcode) && (errcode <? 2 ^ 31)).
  - intros path' mode' ping' during' s' e msg. unfold access.
    destruct (_sendCommand _ _ _ _ _) as [[v|[]|] s2]; cbn [fst];
      split; discriminate.
Qed.

End MoreCallerProperties.

Lemma dict2namedtuple_spec_witness :
  dict2namedtuple {["st_mode"%string := JNum 33188; "extra"%string := JNull]}
                  ["st_mode"%string]
  = Ok [JNum 33188].
Proof.
  apply (dict2namedtuple_spec {["st_mode"%string := JNum 33188]}
           ["st_mode"%string]).
  - apply insert_mono. apply map_empty_subseteq.
  - reflexivity.
Defined.

Lemma access_turns_errors_into_False_witness :
  fst (access (RT := example_runtime) "/tmp" 4 (Accepts 1)
         [wakeup_turn; write_turn; write_turn;
          response_turn (json_errcode "1" "13")]
         IOProcess_new)
  = Ok (JBool false).
Proof.
  apply (access_turns_errors_into_False (RT := example_runtime) "/tmp" 4
           (Accepts 1) _ IOProcess_new
           (snd (_sendCommand_enqueue "access"
                   (JObj [("path"%string, JStr "/tmp"); ("mode"%string, JNum 4)])
                   (Accepts 1) IOProcess_new))
           0%nat (mkResponse (Some 1) (Some 13) None None) 13).
  - vm_compute. reflexivity.
  - vm_compute. reflexivity.
  - reflexivity.
  - discriminate.
Defined.

(** ** Crash and recovery *)

Section RecoveryProperties.
Context {RT : Runtime}.

(** A wakeup on an idle generation with a command on the queue. *)
Lemma wakeup_dispatches (s : System) (m : Comm) (p : pipe) (data : bytes)
    (methodName : string) (args : json) (l : loc)
    (queue : list (string * json * loc)) (frame : bytes) :
  engine s = Running m ->
  _isRunning (client s) = true ->
  dataSender m = None ->
  _commandQueue (client s) = (methodName, args, l) :: queue ->
  fst (os_read p 1) = Ok data ->
  _requestToBytes methodName args (_reqId (client s) + 1) = Ok frame ->
  engine_turn (mkTick true (PollReturns [WakeupReady p])) s
  = mkSystem (mkIOProcess queue (_reqId (client s) + 1) (_isRunning (client s))
                          (_partialLogs (client s)) (_eventFds_open (client s)))
             (Running (mkComm (Some (mkDataSender frame))
                              (<[_reqId (client s) + 1 := l]> (pendingRequests m))
                              (responseReader m)))
             (heap s)
             (trace s ++ [Dispatched (_reqId (client s) + 1) l]).
Proof.
  intros Hm Hrun Hsender Hqueue Hread Hframe.
  unfold engine_turn, iteration. rewrite Hm.
  cbn [polled ioproc_alive negb w_client]. rewrite Hrun at 1.
  cbn [negb for_events handle_event]. unfold on_wakeup.
  rewrite Hread. cbn [w_comm w_client]. rewrite Hsender, Hqueue.
  cbn [_getRequestId set_commandQueue _reqId _commandQueue _isRunning
       _partialLogs _eventFds_open].
  rewrite Hframe. reflexivity.
Qed.

(** A turn that finds a descriptor with an error or hangup flag. *)
Lemma hangup_turn_crashes (s : System) (m : Comm) (fd : fdname) :
  engine s = Running m ->
  _isRunning (client s) = true ->
  engine_turn (mkTick true (PollReturns [ErrorReady fd])) s
  = mkSystem (_run (client s)) (Running Comm_init)
             (fail_all (pendingRequests m) (heap s))
             (trace s ++ [IOProcessFailure; Killed; Spawned]).
Proof.
  intros Hm Hrun.
  now rewrite (crash_turn s m _ [] [] (ErrorReady fd)
                 (mkWorld (client s) m (heap s) (trace s)))
    by (assumption || reflexivity || constructor).
Qed.

(** X18: a command that is still on the queue when the generation
    crashes is not lost: the crash leaves the queue and the counter as
    they are and empties the partial-line buffer, and the first wakeup
    of the new generation dispatches the command under the next id, in
    a table that holds nothing else. *)
Theorem queued_command_survives_crash (s : System) (m : Comm) (t : tick)
    (before after : list ready) (ev : ready) (w1 : World) (p : pipe)
    (data : bytes) (methodName : string) (args : json) (l : loc)
    (queue : list (string * json * loc)) (frame : bytes) :
  engine s = Running m ->
  ioproc_alive t = true ->
  _isRunning (client s) = true ->
  polled t = PollReturns (before ++ ev :: after) ->
  for_events before (mkWorld (client s) m (heap s) (trace s)) = (Continue, w1) ->
  fatal w1 ev ->
  _commandQueue (w_client w1) = (methodName, args, l) :: queue ->
  fst (os_read p 1) = Ok data ->
  _requestToBytes methodName args (_reqId (w_client w1) + 1) = Ok frame ->
  let s1 := engine_turn t s in
  let s2 := engine_turn (mkTick true (PollReturns [WakeupReady p])) s1 in
  (_commandQueue (client s1) = (methodName, args, l) :: queue
   /\ _reqId (client s1) = _reqId (w_client w1)
   /\ _partialLogs (client s1) = []
   /\ engine s1 = Running Comm_init)
  /\ (_commandQueue (client s2) = queue
      /\ engine s2
         = Running (mkComm (Some (mkDataSender frame))
                           {[_reqId (w_client w1) + 1 := l]}
                           ResponseReader_init)
      /\ heap s2 = heap s1).
Proof.
  intros Hm Halive Hrun Hpoll Hbefore Hfatal Hqueue Hread Hframe s1 s2.
  pose proof (crash_turn s m t before after ev w1 Hm Halive Hrun Hpoll
                Hbefore Hfatal) as Hs1.
  fold s1 in Hs1.
  apply for_events_frame in Hbefore as (Hrun1 & _ & _).
  cbn [w_client] in Hrun1.
  assert (H1 : _commandQueue (client s1) = (methodName, args, l) :: queue
               /\ _reqId (client s1) = _reqId (w_client w1)
               /\ _partialLogs (client s1) = []
               /\ engine s1 = Running Comm_init
               /\ _isRunning (client s1) = true).
  { rewrite Hs1. cbn. rewrite Hrun1. auto. }
  destruct H1 as (Hq1 & Hid1 & Hp1 & He1 & Hr1).
  split; [auto|].
  subst s2.
  rewrite (wakeup_dispatches s1 Comm_init p data methodName args l queue frame
             He1 Hr1 eq_refl Hq1 Hread ltac:(now rewrite Hid1)).
  cbn. rewrite Hid1. auto.
Qed.

(** X19: [crash()] on an idle, running client returns True when the
    worker dies of the command: the command is dispatched by the next
    wakeup, the hangup of a descriptor that follows fails it with the
    crash code, [crash] takes the [OSError] for it and returns True, and
    the client is left with a new generation and an empty table. *)
Theorem crash_returns_True (s : System) (m : Comm) (ping : fd_write)
    (p : pipe) (data : bytes) (fd : fdname) (frame : bytes) :
  engine s = Running m ->
  dataSender m = None ->
  _commandQueue (client s) = [] ->
  _isRunning (client s) = true ->
  _pingPoller ping (client s) = Ok tt ->
  fst (os_read p 1) = Ok data ->
  _requestToBytes "crash" (JObj []) (_reqId (client s) + 1) = Ok frame ->
  let during :=
    [EngineTurn (mkTick true (PollReturns [WakeupReady p]));
     EngineTurn (mkTick true (PollReturns [ErrorReady fd]))] in
  fst (crash ping during s) = Ok true
  /\ engine (snd (crash ping during s)) = Running Comm_init.
Proof.
  intros Hm Hsender Hqueue Hrun Hping Hread Hframe during.
  set (l := fresh (dom (heap s))).
  set (c := set_commandQueue (_commandQueue (client s) ++ [("crash"%string, JObj [], l)])
                             (client s)).
  set (s1 := mkSystem c (engine s) (<[l := mkCmdResult false None]> (heap s))
                      (trace s)).
  assert (Henq : _sendCommand_enqueue "crash" (JObj []) ping s = (Ok l, s1)).
  { unfold _sendCommand_enqueue. fold l. fold c.
    assert (_pingPoller ping c = Ok tt) as -> by exact Hping. reflexivity. }
  set (s2 := engine_turn (mkTick true (PollReturns [WakeupReady p])) s1).
  assert (Hs2 : s2 = mkSystem
                  (mkIOProcess [] (_reqId (client s) + 1) true
                               (_partialLogs (client s))
                               (_eventFds_open (client s)))
                  (Running (mkComm (Some (mkDataSender frame))
                                   (<[_reqId (client s) + 1 := l]>
                                      (pendingRequests m))
                                   (responseReader m)))
                  (<[l := mkCmdResult false None]> (heap s))
                  (trace s ++ [Dispatched (_reqId (client s) + 1) l])).
  { subst s2.
    rewrite (wakeup_dispatches s1 m p data "crash" (JObj []) l [] frame);
      subst s1 c; cbn; rewrite ?Hqueue, ?Hrun; auto. }
  set (s3 := engine_turn (mkTick true (PollReturns [ErrorReady fd])) s2).
  assert (Hs3 : heap s3 !! l = Some (mkCmdResult true (Some crash_result))
                /\ engine s3 = Running Comm_init).
  { subst s3.
    set (m2 := mkComm (Some (mkDataSender frame))
                      (<[_reqId (client s) + 1 := l]> (pendingRequests m))
                      (responseReader m)).
    rewrite (hangup_turn_crashes s2 m2 fd) by (rewrite Hs2; reflexivity).
    cbn [heap engine]. split; [|reflexivity].
    apply fail_all_lookup with (reqId := _reqId (client s) + 1).
    subst m2. cbn [pendingRequests]. apply lookup_insert_eq. }
  assert (Hwait : wait l during s1 = s3).
  { subst during. cbn [wait].
    assert (is_set l s1 = false) as ->.
    { unfold is_set. subst s1. cbn [heap]. now rewrite lookup_insert_eq. }
    cbn [step]. fold s2.
    assert (is_set l s2 = false) as ->.
    { unfold is_set. rewrite Hs2. cbn [heap]. now rewrite lookup_insert_eq. }
    reflexivity. }
  unfold crash, _sendCommand, _sendCommand_result.
  rewrite Henq, Hwait. destruct Hs3 as [Hh He]. rewrite Hh. cbn. auto.
Qed.

End RecoveryProperties.

Lemma queued_command_survives_crash_witness :
  let s := run (RT := example_runtime)
               [Caller "echo" (JObj []) (Accepts 1)] IOProcess_new in
  let s1 := engine_turn (RT := example_runtime) hangup_turn s in
  _commandQueue (client s1) = [("echo"%string, JObj [], 0%nat)]
  /\ _reqId (client s1) = 0
  /\ _partialLogs (client s1) = []
  /\ engine s1 = Running Comm_init.
Proof.
  intros s s1.
  apply (queued_command_survives_crash (RT := example_runtime) s Comm_init
           hangup_turn [] [] (ErrorReady ReadPipe)
           (mkWorld (client s) Comm_init (heap s) (trace s))
           [Avail ["0"%byte]] ["0"%byte] "echo" (JObj []) 0%nat []
           (framed (ascii "echo")));
    solve [reflexivity | constructor].
Defined.

Lemma crash_returns_True_witness :
  fst (crash (RT := example_runtime) (Accepts 1)
         [EngineTurn (mkTick true (PollReturns [WakeupReady [Avail ["0"%byte]]]));
          EngineTurn (mkTick true (PollReturns [ErrorReady Out]))]
         IOProcess_new)
  = Ok true.
Proof.
  apply (crash_returns_True (RT := example_runtime) IOProcess_new Comm_init
           (Accepts 1) [Avail ["0"%byte]] ["0"%byte] Out
           (framed (ascii "crash")));
    reflexivity.
Defined.

(** ** A result, once delivered, is final *)

Lemma fail_list_other (locs : list loc) (h : gmap loc CmdResult) (l : loc) :
  ~ In l locs ->
  foldr (fun l acc => resolve l crash_result acc) h locs !! l = h !! l.
Proof.
  induction locs as [|l0 locs IH]; intros Hnot; [reflexivity|].
  cbn [foldr]. unfold resolve at 1.
  rewrite lookup_insert_ne by (intros ->; apply Hnot; now left).
  apply IH. intros H. apply Hnot. now right.
Qed.

Lemma fail_all_other (pending : gmap Z loc) (h : gmap loc CmdResult) (l : loc) :
  (forall reqId : Z, pending !! reqId <> Some l) ->
  fail_all pending h !! l = h !! l.
Proof.
  intros Hnot. unfold fail_all. apply fail_list_other.
  intros Hin. apply in_map_iff in Hin as ([reqId l0] & Heq & Hin).
  cbn in Heq. subst l0. apply list_elem_of_In, elem_of_map_to_list in Hin.
  exact (Hnot reqId Hin).
Qed.

Lemma fail_all_cases (pending : gmap Z loc) (h : gmap loc CmdResult) (l : loc) :
  (exists reqId : Z, pending !! reqId = Some l)
  \/ fail_all pending h !! l = h !! l.
Proof.
  destruct (decide (l ∈ map snd (map_to_list pending))) as [Hin|Hnot].
  - left. apply list_elem_of_In, in_map_iff in Hin as ([reqId l0] & Heq & Hin).
    cbn in Heq. subst l0. exists reqId.
    now apply list_elem_of_In, elem_of_map_to_list in Hin.
  - right. unfold fail_all. apply fail_list_other.
    intros H. apply Hnot. now apply list_elem_of_In.
Qed.

Section FinalProperties.
Context {RT : Runtime}.

(** The body of the loop leaves alone an object that the queue and the
    table do not refer to, and does not start to refer to it. *)
Lemma handle_event_unreferenced (l : loc) (ev : ready) (w w' : World)
    (f : flow) :
  unreferenced l (queued_objs (w_client w)) (pendingRequests (w_comm w)) ->
  handle_event ev w = (f, w') ->
  unreferenced l (queued_objs (w_client w')) (pendingRequests (w_comm w'))
  /\ w_heap w' !! l = w_heap w !! l.
Proof.
  unfold unreferenced, queued_objs. intros [Hq Hp] E.
  handler_cases ev E; cbn.
  all: try match goal with
           | H : _commandQueue _ = _ |- _ => rewrite ?H; cbn in Hq
           end.
  all: split; [split|].
  all: try assumption; try reflexivity; try tauto.
  all: try (intros rq_ H_; apply lookup_delete_Some in H_ as [_ H_];
            exact (Hp _ H_)).
  all: try (intros rq_ H_;
            apply lookup_insert_Some in H_ as [[_ ->]|[_ H_]];
            [tauto|exact (Hp _ H_)]).
  all: unfold resolve; apply lookup_insert_ne; intros ->; eapply Hp; eauto.
Qed.

Lemma for_events_unreferenced (l : loc) (evs : list ready) :
  forall (w w' : World) (f : flow),
  unreferenced l (queued_objs (w_client w)) (pendingRequests (w_comm w)) ->
  for_events evs w = (f, w') ->
  unreferenced l (queued_objs (w_client w')) (pendingRequests (w_comm w'))
  /\ w_heap w' !! l = w_heap w !! l.
Proof.
  induction evs as [|ev evs IH]; intros w w' f Hu H.
  - cbn in H. injection H as <- <-. now split.
  - cbn [for_events] in H.
    destruct (handle_event ev w) as [f1 w1] eqn:E.
    apply (handle_event_unreferenced l _ _ _ _ Hu) in E as [Hu1 Hh1].
    assert (Hcases : (f1 = Continue /\ for_events evs w1 = (f, w'))
                     \/ (f1, w1) = (f, w')).
    { destruct f1; auto. }
    destruct Hcases as [[_ Hrest]|Hstop].
    + apply (IH _ _ _ Hu1) in Hrest as [Hu2 Hh2]. split; [exact Hu2|congruence].
    + injection Hstop as <- <-. now split.
Qed.

Lemma finish_unreferenced (l : loc) (how : ending) (w : World) :
  unreferenced l (queued_objs (w_client w)) (pendingRequests (w_comm w)) ->
  unreferenced l (queued_objs (client (finish how w)))
               (current_table (finish how w))
  /\ heap (finish how w) !! l = w_heap w !! l.
Proof.
  unfold unreferenced, queued_objs, finish, current_table. intros [Hq Hp].
  destruct how as [a|e [|] a]; cbn [w_client w_comm w_heap w_trace];
    destruct (a && _); cbn; rewrite ?fail_all_other by exact Hp;
    (split; [split; [exact Hq|]|reflexivity]);
    intros reqId H; now rewrite lookup_empty in H.
Qed.

Lemma step_unreferenced (l : loc) (i : input) (s : System) :
  is_Some (heap s !! l) ->
  unreferenced l (queued_objs (client s)) (current_table s) ->
  unreferenced l (queued_objs (client (step i s))) (current_table (step i s))
  /\ heap (step i s) !! l = heap s !! l.
Proof.
  intros Hsome Hu. destruct i as [t|cmdName args ping|ping]; cbn [step].
  - unfold engine_turn. unfold current_table in Hu.
    destruct (engine s) as [m| |] eqn:Hm;
      try (unfold current_table; rewrite Hm; now split).
    unfold iteration.
    assert (Hw : unreferenced l
                   (queued_objs (w_client (mkWorld (client s) m (heap s) (trace s))))
                   (pendingRequests (w_comm (mkWorld (client s) m (heap s) (trace s)))))
      by exact Hu.
    destruct (polled t) as [e|evs]; [now apply finish_unreferenced|].
    destruct (negb (ioproc_alive t)); [now apply finish_unreferenced|].
    destruct (negb (_isRunning _)); [now apply finish_unreferenced|].
    destruct (for_events evs _) as [f w'] eqn:E.
    apply (for_events_unreferenced l _ _ _ _ Hw) in E as [Hu' Hh'].
    cbn [w_heap] in Hh'.
    destruct f; try (destruct (finish_unreferenced l (Left true) w' Hu');
                     split; [assumption|congruence]).
    + unfold current_table. cbn [engine client heap]. now split.
    + destruct (finish_unreferenced l (Crashed e true true) w' Hu').
      split; [assumption|congruence].
    + unfold current_table. cbn [engine client heap]. split; [|exact Hh'].
      destruct Hu' as [Hq' _]. split; [exact Hq'|].
      intros reqId H. now rewrite lookup_empty in H.
  - unfold _sendCommand_enqueue, current_table, queued_objs, unreferenced in *.
    assert (Hfresh : fresh (dom (heap s)) <> l).
    { intros <-. apply elem_of_dom in Hsome. now apply is_fresh in Hsome. }
    destruct Hu as [Hq Hp].
    destruct (_pingPoller _ _); cbn [snd client engine heap];
      cbn [set_commandQueue _commandQueue];
      (split; [split; [|exact Hp]|now apply lookup_insert_ne]);
      rewrite map_app, in_app_iff; cbn; intuition.
  - unfold close, current_table, queued_objs in *.
    destruct (negb (_isRunning (client s))); cbn [snd client engine heap];
      [now split|].
    destruct (_pingPoller _ _); cbn [snd client engine heap _commandQueue];
      now split.
Qed.

(** An object the queue and the table do not refer to is never changed
    again. *)
Lemma run_unreferenced (l : loc) (inputs : list input) :
  forall s : System,
  is_Some (heap s !! l) ->
  unreferenced l (queued_objs (client s)) (current_table s) ->
  heap (run inputs s) !! l = heap s !! l.
Proof.
  unfold run. induction inputs as [|i inputs IH]; intros s Hsome Hu;
    [reflexivity|].
  cbn [fold_left].
  destruct (step_unreferenced l i s Hsome Hu) as [Hu' Hh'].
  rewrite IH; [exact Hh'| |exact Hu']. now rewrite Hh'.
Qed.

End FinalProperties.

(** How the queue, the table and the store stay tied together. *)

Lemma refs_ok_resolve (queue : list loc) (pending : gmap Z loc)
    (h : gmap loc CmdResult) (reqId : Z) (l : loc) (rsp : Response) :
  refs_ok queue pending h ->
  pending !! reqId = Some l ->
  refs_ok queue (delete reqId pending) (resolve l rsp h).
Proof.
  intros [Hnd Hpq Hinj Hqa Hpa Hset] Hl. constructor.
  - exact Hnd.
  - intros k l0 H. apply lookup_delete_Some in H as [_ H]. eauto.
  - intros k k' l0 H H'. apply lookup_delete_Some in H as [_ H].
    apply lookup_delete_Some in H' as [_ H']. eauto.
  - intros l0 H. unfold resolve. rewrite lookup_insert. case_decide; eauto.
  - intros k l0 H. apply lookup_delete_Some in H as [_ H].
    unfold resolve. rewrite lookup_insert. case_decide; eauto.
  - intros l0 res H Hev. unfold resolve in H.
    destruct (decide (l0 = l)) as [->|Hne].
    + split; [eauto|]. intros k H'.
      apply lookup_delete_Some in H' as [Hk H']. apply Hk. eauto.
    + rewrite lookup_insert_ne in H by congruence.
      destruct (Hset _ _ H Hev) as [Hq Hp]. split; [exact Hq|].
      intros k H'. apply lookup_delete_Some in H' as [_ H']. exact (Hp _ H').
Qed.

Lemma refs_ok_dispatch (l : loc) (queue : list loc) (pending : gmap Z loc)
    (h : gmap loc CmdResult) (reqId : Z) :
  refs_ok (l :: queue) pending h ->
  refs_ok queue (<[reqId := l]> pending) h.
Proof.
  intros [Hnd Hpq Hinj Hqa Hpa Hset].
  apply List.NoDup_cons_iff in Hnd as [Hl Hnd]. constructor.
  - exact Hnd.
  - intros k l0 H. apply lookup_insert_Some in H as [[_ <-]|[_ H]];
      [exact Hl|].
    intros Hin. apply (Hpq _ _ H). now right.
  - intros k k' l0 H H'.
    apply lookup_insert_Some in H as [[<- Hk]|[Hne H]];
      apply lookup_insert_Some in H' as [[<- Hk']|[Hne' H']].
    + reflexivity.
    + subst l0. exfalso. apply (Hpq _ _ H'). now left.
    + subst l0. exfalso. apply (Hpq _ _ H). now left.
    + eauto.
  - intros l0 H. apply Hqa. now right.
  - intros k l0 H. apply lookup_insert_Some in H as [[_ <-]|[_ H]];
      [apply Hqa; now left|eauto].
  - intros l0 res H Hev. destruct (Hset _ _ H Hev) as [Hq Hp]. split.
    + intros Hin. apply Hq. now right.
    + intros k H'. apply lookup_insert_Some in H' as [[_ Hk]|[_ H']];
        [apply Hq; now left|exact (Hp _ H')].
Qed.

Lemma refs_ok_drop_table (queue : list loc) (pending : gmap Z loc)
    (h : gmap loc CmdResult) :
  refs_ok queue pending h -> refs_ok queue ∅ h.
Proof.
  intros [Hnd Hpq Hinj Hqa Hpa Hset]. constructor; try assumption.
  - intros k l H. now rewrite lookup_empty in H.
  - intros k k' l H. now rewrite lookup_empty in H.
  - intros k l H. now rewrite lookup_empty in H.
  - intros l res H Hev. split; [exact (proj1 (Hset _ _ H Hev))|].
    intros k H'. now rewrite lookup_empty in H'.
Qed.

Lemma refs_ok_fail_all (queue : list loc) (pending : gmap Z loc)
    (h : gmap loc CmdResult) :
  refs_ok queue pending h -> refs_ok queue ∅ (fail_all pending h).
Proof.
  intros [Hnd Hpq Hinj Hqa Hpa Hset]. constructor.
  - exact Hnd.
  - intros k l H. now rewrite lookup_empty in H.
  - intros k k' l H. now rewrite lookup_empty in H.
  - intros l H. destruct (fail_all_cases pending h l) as [[k Hk]|Heq].
    + rewrite (fail_all_lookup _ _ _ _ Hk). eauto.
    + rewrite Heq. auto.
  - intros k l H. now rewrite lookup_empty in H.
  - intros l res H Hev. split; [|intros k H'; now rewrite lookup_empty in H'].
    destruct (fail_all_cases pending h l) as [[k Hk]|Heq]; [eauto|].
    rewrite Heq in H. exact (proj1 (Hset _ _ H Hev)).
Qed.

Lemma refs_ok_enqueue (queue : list loc) (pending : gmap Z loc)
    (h : gmap loc CmdResult) :
  refs_ok queue pending h ->
  refs_ok (queue ++ [fresh (dom h)]) pending
          (<[fresh (dom h) := mkCmdResult false None]> h).
Proof.
  intros [Hnd Hpq Hinj Hqa Hpa Hset].
  assert (Hnew : forall l, is_Some (h !! l) -> l <> fresh (dom h)).
  { intros l H ->. apply elem_of_dom in H. now apply is_fresh in H. }
  constructor.
  - apply List.NoDup_app; [exact Hnd|repeat constructor; intros []|].
    intros l Hin [Hl|[]]. exact (Hnew _ (Hqa _ Hin) (eq_sym Hl)).
  - intros k l H Hin. apply in_app_iff in Hin as [Hin|[<-|[]]].
    + exact (Hpq _ _ H Hin).
    + exact (Hnew _ (Hpa _ _ H) eq_refl).
  - exact Hinj.
  - intros l Hin. rewrite lookup_insert. case_decide; [eauto|].
    apply in_app_iff in Hin as [Hin|[<-|[]]]; [auto|congruence].
  - intros k l H. rewrite lookup_insert. case_decide; eauto.
  - intros l res H Hev. rewrite lookup_insert in H.
    case_decide as Hl; [injection H as <-; discriminate|].
    destruct (Hset _ _ H Hev) as [Hq Hp]. split; [|exact Hp].
    intros Hin. apply in_app_iff in Hin as [Hin|[Heq|[]]]; [auto|congruence].
Qed.

Section ReferenceProperties.
Context {RT : Runtime}.

Lemma handle_event_refs (ev : ready) (w w' : World) (f : flow) :
  refs_ok (queued_objs (w_client w)) (pendingRequests (w_comm w)) (w_heap w) ->
  handle_event ev w = (f, w') ->
  refs_ok (queued_objs (w_client w')) (pendingRequests (w_comm w'))
          (w_heap w').
Proof.
  unfold queued_objs. intros Hr E. handler_cases ev E; cbn.
  all: try match goal with
           | H : _commandQueue _ = _ |- _ => rewrite ?H; cbn in Hr
           end.
  all: try assumption.
  all: try (now apply refs_ok_resolve).
  all: now apply refs_ok_dispatch.
Qed.

Lemma for_events_refs (evs : list ready) :
  forall (w w' : World) (f : flow),
  refs_ok (queued_objs (w_client w)) (pendingRequests (w_comm w)) (w_heap w) ->
  for_events evs w = (f, w') ->
  refs_ok (queued_objs (w_client w')) (pendingRequests (w_comm w'))
          (w_heap w').
Proof.
  induction evs as [|ev evs IH]; intros w w' f Hr H.
  - cbn in H. now injection H as <- <-.
  - cbn [for_events] in H.
    destruct (handle_event ev w) as [f1 w1] eqn:E.
    apply (handle_event_refs _ _ _ _ Hr) in E.
    destruct f1; try (now injection H as <- <-).
    exact (IH _ _ _ E H).
Qed.

Lemma finish_refs (how : ending) (w : World) :
  refs_ok (queued_objs (w_client w)) (pendingRequests (w_comm w)) (w_heap w) ->
  refs_ok (queued_objs (client (finish how w))) (current_table (finish how w))
          (heap (finish how w)).
Proof.
  unfold queued_objs, finish, current_table. intros Hr.
  destruct how as [a|e [|] a]; cbn [w_client w_comm w_heap w_trace];
    destruct (a && _); cbn;
    first [now apply refs_ok_fail_all|now apply refs_ok_drop_table with (pending := pendingRequests (w_comm w))].
Qed.

Lemma step_refs (i : input) (s : System) :
  refs_ok (queued_objs (client s)) (current_table s) (heap s) ->
  refs_ok (queued_objs (client (step i s))) (current_table (step i s))
          (heap (step i s)).
Proof.
  intros Hr. destruct i as [t|cmdName args ping|ping]; cbn [step].
  - unfold engine_turn. unfold current_table in Hr.
    destruct (engine s) as [m| |] eqn:Hm;
      try (unfold current_table; now rewrite Hm).
    unfold iteration.
    assert (Hw : refs_ok
                   (queued_objs (w_client (mkWorld (client s) m (heap s) (trace s))))
                   (pendingRequests (w_comm (mkWorld (client s) m (heap s) (trace s))))
                   (w_heap (mkWorld (client s) m (heap s) (trace s))))
      by exact Hr.
    destruct (polled t) as [e|evs]; [now apply finish_refs|].
    destruct (negb (ioproc_alive t)); [now apply finish_refs|].
    destruct (negb (_isRunning _)); [now apply finish_refs|].
    destruct (for_events evs _) as [f w'] eqn:E.
    apply (for_events_refs _ _ _ _ Hw) in E.
    destruct f; try (now apply finish_refs).
    + unfold current_table. now cbn [engine client heap].
    + unfold current_table. cbn [engine client heap].
      now apply refs_ok_drop_table with (pending := pendingRequests (w_comm w')).
  - unfold _sendCommand_enqueue, current_table, queued_objs in *.
    destruct (_pingPoller _ _); cbn [snd client engine heap];
      cbn [set_commandQueue _commandQueue]; rewrite map_app; cbn [map snd];
      now apply refs_ok_enqueue.
  - unfold close, current_table, queued_objs in *.
    destruct (negb (_isRunning (client s))); cbn [snd client engine heap];
      [assumption|].
    destruct (_pingPoller _ _); cbn [snd client engine heap _commandQueue];
      assumption.
Qed.

Lemma run_refs (inputs : list input) :
  forall s : System,
  refs_ok (queued_objs (client s)) (current_table s) (heap s) ->
  refs_ok (queued_objs (client (run inputs s))) (current_table (run inputs s))
          (heap (run inputs s)).
Proof.
  unfold run. induction inputs as [|i inputs IH]; intros s Hr; [exact Hr|].
  cbn [fold_left]. apply IH. now apply step_refs.
Qed.

Lemma IOProcess_new_refs :
  refs_ok (queued_objs (client IOProcess_new)) (current_table IOProcess_new)
          (heap IOProcess_new).
Proof.
  constructor; cbn.
  - constructor.
  - intros k l H. now rewrite lookup_empty in H.
  - intros k k' l H. now rewrite lookup_empty in H.
  - intros l [].
  - intros k l H. now rewrite lookup_empty in H.
  - intros l res H. now rewrite lookup_empty in H.
Qed.

(** X22: a result, once delivered, is final. In any history of a new
    client, an object whose event is set is never written again, whatever
    follows: further responses with any id, crashes of the worker, new
    commands or [close]. *)
Theorem delivered_result_is_final (before after : list input) (l : loc)
    (res : CmdResult) :
  heap (run before IOProcess_new) !! l = Some res ->
  event res = true ->
  heap (run after (run before IOProcess_new)) !! l = Some res.
Proof.
  intros Hl Hev.
  pose proof (run_refs before _ IOProcess_new_refs) as Hr.
  rewrite run_unreferenced; [exact Hl|rewrite Hl; eauto|].
  exact (set_unreferenced _ _ _ Hr _ _ Hl Hev).
Qed.

End ReferenceProperties.

(** X22 at a response to request 1 followed by a second response with the
    same id and the loss of the worker. *)
Lemma delivered_result_is_final_witness :
  let before := [Caller "echo" (JObj []) (Accepts 1); wakeup_turn;
                 write_turn; write_turn; response_turn (json_errcode "1" "2")] in
  let after := [response_turn (json_errcode "1" "3");
                Caller "stat" (JObj []) (Accepts 1); wakeup_turn;
                EngineTurn hangup_turn] in
  heap (run (RT := example_runtime) after
          (run (RT := example_runtime) before IOProcess_new)) !! 0%nat
  = Some (mkCmdResult true (Some (mkResponse (Some 1) (Some 2) None None))).
Proof.
  intros before after.
  apply (delivered_result_is_final (RT := example_runtime) before after 0%nat).
  - vm_compute. reflexivity.
  - reflexivity.
Defined.

(** ** Where the crash path is missed *)

(** C1 fails on the code. A client has one request outstanding, id 1 in
    the table. A read of the response pipe that finds the header of a
    nine-byte response and its first byte makes [process] return False,
    and the loop [return]s: the [finally] kills the worker and starts a
    new generation with an empty table, the handler is not run, and the
    object of the request keeps its event unset, whatever runs
    afterwards: its caller is never released with the crash error. The
    same happens when [poll] raises (here ENOMEM): [real_ioproc] is None
    in the handler, which stops at its first line, before the loop over
    the table. *)
Theorem teardown_leaves_request_unresolved (after : list input) :
  let s := run (RT := example_runtime)
             [Caller "echo" (JObj []) (Accepts 1); wakeup_turn; write_turn;
              write_turn] IOProcess_new in
  let incomplete :=
    EngineTurn
      (mkTick true
         (PollReturns
            [ResponseReady [Avail (default [] (Size.pack 9) ++ ascii "{")]])) in
  let poll_raises := EngineTurn (mkTick true (PollFails 12)) in
  let unresolved (s' : System) : Prop :=
    engine s' = Running Comm_init
    /\ trace s' = trace s ++ [Killed; Spawned]
    /\ heap (run (RT := example_runtime) after s') !! 0%nat
       = Some (mkCmdResult false None) in
  (current_table s = {[1 := 0%nat]}
   /\ heap s !! 0%nat = Some (mkCmdResult false None))
  /\ unresolved (step (RT := example_runtime) incomplete s)
  /\ unresolved (step (RT := example_runtime) poll_raises s).
Proof.
  intros s incomplete poll_raises unresolved.
  assert (Hgen : forall s' : System,
             engine s' = Running Comm_init ->
             trace s' = trace s ++ [Killed; Spawned] ->
             heap s' !! 0%nat = Some (mkCmdResult false None) ->
             queued_objs (client s') = [] ->
             unresolved s').
  { intros s' He Ht Hh Hq. split; [exact He|]. split; [exact Ht|].
    rewrite (run_unreferenced (RT := example_runtime) 0%nat after s').
    - exact Hh.
    - rewrite Hh. eauto.
    - unfold unreferenced, current_table. rewrite Hq, He.
      split; [intros []|]. intros reqId H.
      unfold Comm_init in H. cbn [pendingRequests] in H.
      now rewrite lookup_empty in H. }
  split; [split; vm_compute; reflexivity|].
  split; apply Hgen; vm_compute; reflexivity.
Qed.
